(** * twillecke/site: the constants module, the build configuration, the
    content documents' front-matter and the token bucket of the
    rate-limiter article, embedded in Rocq.

    Layout:
    - [Js]: the object literals of [consts.ts] and of the build
      configuration, as a small literal syntax;
    - [Content]: the head of every content document, line by line, with the
      reader of its front-matter block;
    - [TokenBucket]: the class of the rate-limiter article, its methods
      in a clock-reading state monad, on whole counts and valid dates;
    - [Number], [TokenBucketNumber]: the numbers and dates of the language
      (fractions, infinities, NaN, Invalid Date) and the same class on them;
    - [BucketStorage]: the storage class of the same article, over a heap
      of bucket objects. *)

From Stdlib Require Import ZArith List String Ascii Bool Lia.
From Stdlib Require Import QArith Qround Qcanon Lqa.
Import ListNotations.

#[local] Close Scope Qc_scope.
#[local] Close Scope Q_scope.

#[local] Open Scope Z_scope.

(* ------------------------------------------------------------------ *)
(** ** Text helpers *)

Module Text.

Definition code (c : ascii) : Z := Z.of_N (N_of_ascii c).

Definition is_digit (c : ascii) : bool :=
  (48 <=? code c) && (code c <=? 57).

Definition is_alpha (c : ascii) : bool :=
  ((65 <=? code c) && (code c <=? 90)) || ((97 <=? code c) && (code c <=? 122)).

Fixpoint all (p : ascii -> bool) (s : string) : bool :=
  match s with
  | EmptyString => true
  | String c rest => p c && all p rest
  end.

Definition first_char (s : string) : option ascii :=
  match s with
  | EmptyString => None
  | String c _ => Some c
  end.

Fixpoint last_char (s : string) : option ascii :=
  match s with
  | EmptyString => None
  | String c EmptyString => Some c
  | String _ rest => last_char rest
  end.

(** [break_at c s]: the text before the first [c], and the text from that
    [c] on (empty when [s] has no [c]). *)
Fixpoint break_at (c : ascii) (s : string) : string * string :=
  match s with
  | EmptyString => (EmptyString, EmptyString)
  | String d rest =>
      if Ascii.eqb c d then (EmptyString, s)
      else let (before, from) := break_at c rest in (String d before, from)
  end.

(** [split_on c s]: the texts on both sides of the first [c] of [s]. *)
Definition split_on (c : ascii) (s : string) : option (string * string) :=
  match break_at c s with
  | (before, String _ after) => Some (before, after)
  | (_, EmptyString) => None
  end.

Fixpoint drop_spaces (s : string) : string :=
  match s with
  | String " "%char rest => drop_spaces rest
  | _ => s
  end.

(** The words of [s], separated by single spaces. *)
Fixpoint words_from (current : string) (s : string) : list string :=
  match s with
  | EmptyString => [current]
  | String " "%char rest => current :: words_from EmptyString rest
  | String c rest => words_from (current ++ String c EmptyString)%string rest
  end.

Definition words (s : string) : list string := words_from EmptyString s.

(** The value of a non-empty run of decimal digits. *)
Fixpoint digits_from (acc : Z) (s : string) : option Z :=
  match s with
  | EmptyString => Some acc
  | String c rest =>
      if is_digit c then digits_from (10 * acc + (code c - 48)) rest else None
  end.

Definition number (s : string) : option Z :=
  match s with
  | EmptyString => None
  | _ => digits_from 0 s
  end.

(** The double quote character, and a text between double quotes. *)
Definition quote : ascii := "034"%char.

Definition dq (s : string) : string :=
  String quote (s ++ String quote EmptyString)%string.

(** The text between the quotes of a double-quoted text. *)
Fixpoint until_closing_quote (s : string) : option string :=
  match s with
  | EmptyString => None
  | String c EmptyString => if Ascii.eqb c quote then Some EmptyString else None
  | String c rest => option_map (String c) (until_closing_quote rest)
  end.

Definition unquote (s : string) : option string :=
  match s with
  | String c rest => if Ascii.eqb c quote then until_closing_quote rest else None
  | EmptyString => None
  end.

End Text.

(* ------------------------------------------------------------------ *)
(** ** Object literals: [consts.ts] and the build configuration *)

Module Js.

#[local] Open Scope string_scope.

(** The literal syntax the two modules use: strings, numbers (all of them
    integers here), array and object literals, and calls of imported
    functions. *)
#[local] Unset Elimination Schemes.
Inductive expr : Type :=
| Str (s : string)
| Num (n : Z)
| Arr (items : list expr)
| Obj (props : list (string * expr))
| Call (callee : string) (args : list expr).
#[local] Set Elimination Schemes.

(** In an object literal the last property of a name is the one kept. *)
Definition lookup {A : Type} (k : string) (l : list (string * A)) : option A :=
  option_map snd (find (fun p => String.eqb k (fst p)) (rev l)).

Definition prop (k : string) (e : expr) : option expr :=
  match e with
  | Obj props => lookup k props
  | _ => None
  end.

Definition keys (e : expr) : list string :=
  match e with
  | Obj props => map fst props
  | _ => []
  end.

Definition elements (e : expr) : list expr :=
  match e with
  | Arr items => items
  | _ => []
  end.

(** *** consts.ts, lines 1-40 *)

Definition SITE : expr :=
  Obj [ ("NAME", Str "Thiago Willecke | dev");
        ("EMAIL", Str "thiagogwillecke@gmail.com");
        ("NUM_POSTS_ON_HOMEPAGE", Num 3);
        ("NUM_WORKS_ON_HOMEPAGE", Num 2);
        ("NUM_PROJECTS_ON_HOMEPAGE", Num 3) ].

Definition HOME : expr :=
  Obj [ ("TITLE", Str "Home");
        ("DESCRIPTION",
         Str "A blog about my findings and experiences as developer.") ].

Definition BLOG : expr :=
  Obj [ ("TITLE", Str "Blog");
        ("DESCRIPTION",
         Str "A collection of articles on topics I am passionate about.") ].

Definition WORK : expr :=
  Obj [ ("TITLE", Str "Work");
        ("DESCRIPTION", Str "Where I have worked and what I have done.") ].

Definition PROJECTS : expr :=
  Obj [ ("TITLE", Str "Projects");
        ("DESCRIPTION",
         Str "A collection of my projects, with links to repositories.") ].

Definition SOCIALS : expr :=
  Arr [ Obj [ ("NAME", Str "github");
              ("HREF", Str "https://github.com/twillecke") ];
        Obj [ ("NAME", Str "linkedin");
              ("HREF",
               Str "https://www.linkedin.com/in/thiago-guedes-willecke/") ] ].

(** A landing page shows a handful of items: a count of one digit. *)
Definition small (n : Z) : Prop := 0 <= n < 10.

(** *** The build configuration (the module with [defineConfig]) *)

(** [import <name> from <module>], in the order of the file. *)
Definition imports : list (string * string) :=
  [ ("defineConfig", "astro/config");
    ("mdx", "@astrojs/mdx");
    ("sitemap", "@astrojs/sitemap");
    ("tailwind", "@astrojs/tailwind") ].

(** [export default defineConfig({ ... })] *)
Definition default_export : expr :=
  Call "defineConfig"
    [ Obj [ ("site", Str "https://twillecke.github.io/");
            ("base", Str "/site/");
            ("integrations",
             Arr [ Call "mdx" []; Call "sitemap" []; Call "tailwind" [] ]) ] ].

(** The record handed to [defineConfig]. *)
Definition config : option expr :=
  match default_export with
  | Call "defineConfig" [record] => Some record
  | _ => None
  end.

(** The package an entry of [integrations] comes from: the entry calls an
    imported factory with no argument. *)
Definition integration_package (e : expr) : option string :=
  match e with
  | Call factory [] => lookup factory imports
  | _ => None
  end.

End Js.

(* ------------------------------------------------------------------ *)
(** ** What the claims ask of a text: an absolute URL, a calendar date *)

Module Url.

Import Text.

(** The parts of [scheme://host/path]. *)
Record url : Type := mkUrl {
  scheme : string;
  host : string;
  path : string
}.

Definition one_of (cs : list ascii) (c : ascii) : bool :=
  existsb (Ascii.eqb c) cs.

(** RFC 3986: a scheme is a letter followed by letters, digits, [+], [-]
    and [.]. *)
Definition scheme_char (c : ascii) : bool :=
  is_alpha c || is_digit c || one_of ["+"; "-"; "."]%char c.

Definition valid_scheme (s : string) : bool :=
  match s with
  | String c rest => is_alpha c && all scheme_char rest
  | EmptyString => false
  end.

(** A registered host name: letters, digits, [-] and [.]. *)
Definition host_char (c : ascii) : bool :=
  is_alpha c || is_digit c || one_of ["-"; "."]%char c.

(** What may follow the host: printable, no space, none of the characters
    a URL has to escape. *)
Definition url_char (c : ascii) : bool :=
  (33 <=? code c) && (code c <=? 126)
  && negb (one_of [quote; "<"; ">"; "\"; "^"; "`"; "{"; "|"; "}"]%char c).

(** An absolute URL names its scheme and its host itself: a valid scheme,
    [://], a non-empty host, then a path (with query and fragment) of URL
    characters. *)
Definition parse (s : string) : option url :=
  match split_on ":" s with
  | Some (sch, String "/" (String "/" rest)) =>
      let (h, p) := break_at "/" rest in
      if valid_scheme sch && negb (String.eqb h "") && all host_char h
         && all url_char p
      then Some {| scheme := sch; host := h; path := p |}
      else None
  | _ => None
  end.

Definition absolute (s : string) : bool :=
  match parse s with
  | Some _ => true
  | None => false
  end.

(** An origin URL has nothing after its host but the root path. *)
Definition origin (s : string) : bool :=
  match parse s with
  | Some u => String.eqb (path u) "" || String.eqb (path u) "/"
  | None => false
  end.

End Url.

Module Date.

Import Text.

#[local] Open Scope string_scope.

Definition months : list (string * Z) :=
  [ ("Jan", 1); ("Feb", 2); ("Mar", 3); ("Apr", 4); ("May", 5); ("Jun", 6);
    ("Jul", 7); ("Aug", 8); ("Sep", 9); ("Oct", 10); ("Nov", 11);
    ("Dec", 12) ]%Z.

Definition month_number (name : string) : option Z :=
  option_map snd (find (fun m => String.eqb name (fst m)) months).

Definition leap (y : Z) : bool :=
  ((y mod 4 =? 0) && negb (y mod 100 =? 0) || (y mod 400 =? 0))%Z.

Definition days_in_month (y m : Z) : Z :=
  (if m =? 2 then (if leap y then 29 else 28)
   else if (m =? 4) || (m =? 6) || (m =? 9) || (m =? 11) then 30
   else 31)%Z.

Record date : Type := mkDate { year : Z; month : Z; day : Z }.

(** A date written [Mon DD YYYY], as the documents write it: the month by
    its English three-letter name, and a day that the month of that year
    has. *)
Definition parse (s : string) : option date :=
  match words s with
  | [mon; dd; yyyy] =>
      match month_number mon, number dd, number yyyy with
      | Some m, Some d, Some y =>
          if ((1 <=? d) && (d <=? days_in_month y m))%Z
          then Some {| year := y; month := m; day := d |}
          else None
      | _, _, _ => None
      end
  | _ => None
  end.

End Date.

(* ------------------------------------------------------------------ *)
(** ** Content documents: the head of each file and its front-matter *)

Module Content.

Import Text.

#[local] Open Scope string_scope.

(** The head of a document, line by line, down to the fence that closes
    the front-matter block; the body follows it. *)

(** consts.ts, lines 41-46 *)
Definition rate_limiters : list string :=
  [ "---";
    "title: " ++ dq "Handling traffic with rate limiters";
    "description: " ++ dq "A TypeScript implementation";
    "date: " ++ dq "Jul 21 2025";
    "draft: false";
    "---" ].

(** consts.ts, lines 200-204 *)
Definition automated_tests : list string :=
  [ "---";
    "title: " ++ dq "Automated Tests";
    "description: "
      ++ dq "What are automated tests and why should you implement them?";
    "date: " ++ dq "Dec 23 2024";
    "---" ].

(** unnamed/part_001, lines 1-6 *)
Definition polling_vs_event_listener : list string :=
  [ "---";
    "title: " ++ dq "Polling vs Event Listener";
    "description: "
      ++ dq "Exploring the difference between polling and listening to events";
    "date: " ++ dq "Jan 04 2025";
    "draft: false";
    "---" ].

(** unnamed/part_002, lines 1-6 *)
Definition fragment_shaders : list string :=
  [ "---";
    "title: " ++ dq "An introduction to fragment shaders";
    "description: " ++ dq "What are they and how to implement them";
    "date: " ++ dq "Jul 07 2025";
    "draft: false";
    "---" ].

Definition documents : list (list string) :=
  [ rate_limiters; automated_tests; polling_vs_event_listener;
    fragment_shaders ].

(** A front-matter value: a text or a boolean. *)
Inductive scalar : Type :=
| YStr (s : string)
| YBool (b : bool).

Definition fence : string := "---".

(** The lines between the opening fence, which has to be the first line,
    and the next fence. *)
Fixpoint until_fence (lines : list string) : option (list string) :=
  match lines with
  | [] => None
  | l :: rest =>
      if String.eqb l fence then Some []
      else option_map (cons l) (until_fence rest)
  end.

Definition block (lines : list string) : option (list string) :=
  match lines with
  | l :: rest => if String.eqb l fence then until_fence rest else None
  | [] => None
  end.

(** [true] and [false] are booleans, a double-quoted value is the text
    between its quotes, anything else is the text as written. *)
Definition parse_scalar (v : string) : scalar :=
  if String.eqb v "true" then YBool true
  else if String.eqb v "false" then YBool false
  else match unquote v with
       | Some inner => YStr inner
       | None => YStr v
       end.

(** A line [key: value]. *)
Definition parse_line (l : string) : option (string * scalar) :=
  match split_on ":" l with
  | Some (k, v) => Some (k, parse_scalar (drop_spaces v))
  | None => None
  end.

Fixpoint parse_lines (ls : list string) : option (list (string * scalar)) :=
  match ls with
  | [] => Some []
  | l :: rest =>
      match parse_line l, parse_lines rest with
      | Some kv, Some kvs => Some (kv :: kvs)
      | _, _ => None
      end
  end.

(** The fields of a document's front-matter. *)
Definition front_matter (doc : list string) : option (list (string * scalar)) :=
  match block doc with
  | Some ls => parse_lines ls
  | None => None
  end.

Definition field (k : string) (doc : list string) : option scalar :=
  match front_matter doc with
  | Some kvs => option_map snd (find (fun kv => String.eqb k (fst kv)) kvs)
  | None => None
  end.

Definition has_text (k : string) (doc : list string) : bool :=
  match field k doc with
  | Some (YStr _) => true
  | _ => false
  end.

Definition has_boolean (k : string) (doc : list string) : bool :=
  match field k doc with
  | Some (YBool _) => true
  | _ => false
  end.

Definition lacks (k : string) (doc : list string) : bool :=
  match field k doc with
  | None => true
  | Some _ => false
  end.

(** A front-matter with all four fields. *)
Definition complete (doc : list string) : bool :=
  has_text "title" doc && has_text "description" doc && has_text "date" doc
  && has_boolean "draft" doc.

(** The date of a document, when its [date] field is a text that reads as
    a date. *)
Definition date_of (doc : list string) : option Date.date :=
  match field "date" doc with
  | Some (YStr s) => Date.parse s
  | _ => None
  end.

End Content.

(* ------------------------------------------------------------------ *)
(** ** The token bucket (consts.ts, lines 84-148) *)

Module TokenBucket.

(** [const BUCKET_CAPACITY = 5; const BUCKET_REFILL_RATE = 5000; // in ms] *)
Definition BUCKET_CAPACITY : Z := 5.
Definition BUCKET_REFILL_RATE : Z := 5000.

(** The fields of the class, for the buckets whose token count is a whole
    number and whose refill date is valid: a [Date] is its [getTime()]
    value, an integer number of milliseconds, a count is an integer.  On
    these values the arithmetic of the methods is exact.  The class on all
    numbers and dates is [TokenBucketNumber]; [run_whole] and the lemmas
    before it show that the two agree on these buckets. *)
Record TokenBucket : Type := mkTokenBucket {
  refilledAt : Z;
  id : string;
  capacity : Z;
  remaining : Z
}.

(** A method body reads the clock ([new Date()]) and updates [this]. *)
Definition Method (A : Type) : Type := Z -> TokenBucket -> A * TokenBucket.

Definition ret {A : Type} (a : A) : Method A :=
  fun _ this => (a, this).

Definition bind {A B : Type} (m : Method A) (k : A -> Method B) : Method B :=
  fun now this => let (a, this') := m now this in k a now this'.

Notation "x <- m ;; k" := (bind m (fun x => k))
  (at level 61, m at next level, right associativity).
Notation "m ;; k" := (bind m (fun _ => k))
  (at level 61, right associativity).

(** [new Date().getTime()] *)
Definition newDate : Method Z := fun now this => (now, this).

(** reading [this.f] *)
Definition this_ {A : Type} (f : TokenBucket -> A) : Method A :=
  fun _ this => (f this, this).

(** [this.remaining = v] *)
Definition set_remaining (v : Z) : Method unit :=
  fun _ this =>
    (tt, {| refilledAt := refilledAt this; id := id this;
            capacity := capacity this; remaining := v |}).

(** [this.refilledAt = new Date(v)] *)
Definition set_refilledAt (v : Z) : Method unit :=
  fun _ this =>
    (tt, {| refilledAt := v; id := id this;
            capacity := capacity this; remaining := remaining this |}).

(** [constructor(id, tokens = BUCKET_CAPACITY, refilledAt = new Date())]:
    an omitted argument is [None]; [now] is the clock at construction. *)
Definition constructor (id0 : string) (tokens : option Z)
    (refilledAt0 : option Z) (now : Z) : TokenBucket :=
  {| refilledAt := match refilledAt0 with Some d => d | None => now end;
     id := id0;
     capacity := BUCKET_CAPACITY;
     remaining := match tokens with Some t => t | None => BUCKET_CAPACITY end |}.

(** [private refillIfNeeded(): void].  [Math.floor(elapsed / RATE)] is taken
    only when [elapsed >= RATE > 0], where it is the integer quotient. *)
Definition refillIfNeeded : Method unit :=
  now <- newDate ;;
  last <- this_ refilledAt ;;
  let elapsed := now - last in
  if elapsed <? BUCKET_REFILL_RATE then ret tt else
  let intervalsPassed := elapsed / BUCKET_REFILL_RATE in
  if intervalsPassed <=? 0 then ret tt else
  cap <- this_ capacity ;;
  rem <- this_ remaining ;;
  set_remaining (Z.min cap (rem + intervalsPassed)) ;;
  last' <- this_ refilledAt ;;
  set_refilledAt (last' + intervalsPassed * BUCKET_REFILL_RATE).

(** [public consumeToken(): void] *)
Definition consumeToken : Method unit :=
  refillIfNeeded ;;
  rem <- this_ remaining ;;
  if 0 <? rem then set_remaining (rem - 1) else ret tt.

(** [public getTokensLeft(): number] *)
Definition getTokensLeft : Method Z :=
  this_ remaining.

(** [public hasAvailableTokens(): boolean] *)
Definition hasAvailableTokens : Method bool :=
  refillIfNeeded ;;
  rem <- this_ remaining ;;
  ret (0 <? rem).

(** The public calls a client can make, and a run of them: every call
    comes with the clock value at which it is made. *)
Inductive call : Type :=
| ConsumeToken
| GetTokensLeft
| HasAvailableTokens.

Definition perform (c : call) : Method unit :=
  match c with
  | ConsumeToken => consumeToken
  | GetTokensLeft => getTokensLeft ;; ret tt
  | HasAvailableTokens => hasAvailableTokens ;; ret tt
  end.

Fixpoint run (trace : list (Z * call)) (this : TokenBucket) : TokenBucket :=
  match trace with
  | [] => this
  | (now, c) :: rest => run rest (snd (perform c now this))
  end.

(** Call times that never go back. *)
Fixpoint nondecreasing (times : list Z) : Prop :=
  match times with
  | t1 :: (t2 :: _) as later => t1 <= t2 /\ nondecreasing later
  | _ => True
  end.

(** The invariant of the class. *)
Definition in_range (this : TokenBucket) : Prop :=
  0 <= remaining this <= capacity this.

End TokenBucket.

(* ------------------------------------------------------------------ *)
(** ** Numbers and dates of the language, and the token bucket on them *)

Module Number.

(** A [number]: a finite value, an infinity or NaN.  A finite value is
    kept as the exact rational in lowest terms: the rounding of doubles is
    not modelled, nor the sign of zero. *)
Inductive number : Type :=
| Fin (q : Q)
| PInf
| NInf
| NaN.

(** An integer as a number. *)
Definition int (z : Z) : number := Fin (inject_Z z).

Definition add (x y : number) : number :=
  match x, y with
  | NaN, _ | _, NaN => NaN
  | Fin a, Fin b => Fin (Qred (a + b))
  | PInf, NInf | NInf, PInf => NaN
  | PInf, _ | _, PInf => PInf
  | NInf, _ | _, NInf => NInf
  end.

Definition sub (x y : number) : number :=
  match x, y with
  | NaN, _ | _, NaN => NaN
  | Fin a, Fin b => Fin (Qred (a - b))
  | PInf, PInf | NInf, NInf => NaN
  | PInf, _ | _, NInf => PInf
  | NInf, _ | _, PInf => NInf
  end.

(** The infinity of the sign of [q], NaN for zero. *)
Definition inf_of_sign (q : Q) : number :=
  match Qcompare q 0 with
  | Gt => PInf
  | Lt => NInf
  | Eq => NaN
  end.

Definition mul (x y : number) : number :=
  match x, y with
  | NaN, _ | _, NaN => NaN
  | Fin a, Fin b => Fin (Qred (a * b))
  | Fin a, PInf | PInf, Fin a => inf_of_sign a
  | Fin a, NInf | NInf, Fin a => inf_of_sign (- a)
  | PInf, PInf | NInf, NInf => PInf
  | PInf, NInf | NInf, PInf => NInf
  end.

Definition div (x y : number) : number :=
  match x, y with
  | NaN, _ | _, NaN => NaN
  | Fin a, Fin b =>
      if Qeq_bool b 0 then inf_of_sign a else Fin (Qred (a / b))
  | Fin _, PInf | Fin _, NInf => Fin 0
  | PInf, Fin b => if Qle_bool 0 b then PInf else NInf
  | NInf, Fin b => if Qle_bool 0 b then NInf else PInf
  | PInf, PInf | PInf, NInf | NInf, PInf | NInf, NInf => NaN
  end.

(** [Math.floor] *)
Definition floor (x : number) : number :=
  match x with
  | Fin q => int (Qfloor q)
  | _ => x
  end.

(** [Math.min] of two numbers. *)
Definition min (x y : number) : number :=
  match x, y with
  | NaN, _ | _, NaN => NaN
  | NInf, _ | _, NInf => NInf
  | PInf, _ => y
  | _, PInf => x
  | Fin a, Fin b => if Qle_bool a b then x else y
  end.

(** [x < y] and [x <= y]: false as soon as one side is NaN. *)
Definition lt (x y : number) : bool :=
  match x, y with
  | NaN, _ | _, NaN => false
  | Fin a, Fin b => negb (Qle_bool b a)
  | _, NInf | PInf, _ => false
  | NInf, _ | _, PInf => true
  end.

Definition le (x y : number) : bool :=
  match x, y with
  | NaN, _ | _, NaN => false
  | Fin a, Fin b => Qle_bool a b
  | NInf, _ | _, PInf => true
  | _, NInf | PInf, _ => false
  end.

(** [x > y] *)
Definition gt (x y : number) : bool := lt y x.

(** A [Date] is its time value: a whole number of milliseconds, or none
    for an Invalid Date.  The range of the time value is not modelled. *)
Definition Date : Type := option Z.

(** [d.getTime()] *)
Definition getTime (d : Date) : number :=
  match d with
  | Some t => int t
  | None => NaN
  end.

(** [new Date(x)]: the whole part of a finite [x], towards zero. *)
Definition new_Date (x : number) : Date :=
  match x with
  | Fin q => Some (if Qle_bool 0 q then Qfloor q else Qceiling q)
  | _ => None
  end.

End Number.

Module TokenBucketNumber.

Import Number.

(** The same class with the fields at the types the source gives them:
    [refilledAt: Date], [capacity: number], [remaining: number]. *)

Definition BUCKET_CAPACITY : number := int 5.
Definition BUCKET_REFILL_RATE : number := int 5000.

Record TokenBucket : Type := mkTokenBucket {
  refilledAt : Date;
  id : string;
  capacity : number;
  remaining : number
}.

(** A method body reads the system clock, a valid date, and updates
    [this]. *)
Definition Method (A : Type) : Type := Z -> TokenBucket -> A * TokenBucket.

Definition ret {A : Type} (a : A) : Method A :=
  fun _ this => (a, this).

Definition bind {A B : Type} (m : Method A) (k : A -> Method B) : Method B :=
  fun now this => let (a, this') := m now this in k a now this'.

Notation "x <- m ;; k" := (bind m (fun x => k))
  (at level 61, m at next level, right associativity).
Notation "m ;; k" := (bind m (fun _ => k))
  (at level 61, right associativity).

(** [new Date()] *)
Definition newDate : Method Date := fun now this => (Some now, this).

Definition this_ {A : Type} (f : TokenBucket -> A) : Method A :=
  fun _ this => (f this, this).

Definition set_remaining (v : number) : Method unit :=
  fun _ this =>
    (tt, {| refilledAt := refilledAt this; id := id this;
            capacity := capacity this; remaining := v |}).

Definition set_refilledAt (v : Date) : Method unit :=
  fun _ this =>
    (tt, {| refilledAt := v; id := id this;
            capacity := capacity this; remaining := remaining this |}).

(** [constructor(id, tokens = BUCKET_CAPACITY, refilledAt = new Date())]:
    any number and any date are stored as they come. *)
Definition constructor (id0 : string) (tokens : option number)
    (refilledAt0 : option Date) (now : Z) : TokenBucket :=
  {| refilledAt := match refilledAt0 with Some d => d | None => Some now end;
     id := id0;
     capacity := BUCKET_CAPACITY;
     remaining := match tokens with Some t => t | None => BUCKET_CAPACITY end |}.

(** [private refillIfNeeded(): void] *)
Definition refillIfNeeded : Method unit :=
  now <- newDate ;;
  last <- this_ refilledAt ;;
  let elapsed := sub (getTime now) (getTime last) in
  if lt elapsed BUCKET_REFILL_RATE then ret tt else
  let intervalsPassed := floor (div elapsed BUCKET_REFILL_RATE) in
  if le intervalsPassed (int 0) then ret tt else
  cap <- this_ capacity ;;
  rem <- this_ remaining ;;
  set_remaining (min cap (add rem intervalsPassed)) ;;
  last' <- this_ refilledAt ;;
  set_refilledAt
    (new_Date (add (getTime last') (mul intervalsPassed BUCKET_REFILL_RATE))).

(** [public consumeToken(): void] *)
Definition consumeToken : Method unit :=
  refillIfNeeded ;;
  rem <- this_ remaining ;;
  if gt rem (int 0) then set_remaining (sub rem (int 1)) else ret tt.

(** [public getTokensLeft(): number] *)
Definition getTokensLeft : Method number :=
  this_ remaining.

(** [public hasAvailableTokens(): boolean] *)
Definition hasAvailableTokens : Method bool :=
  refillIfNeeded ;;
  rem <- this_ remaining ;;
  ret (gt rem (int 0)).

Definition perform (c : TokenBucket.call) : Method unit :=
  match c with
  | TokenBucket.ConsumeToken => consumeToken
  | TokenBucket.GetTokensLeft => getTokensLeft ;; ret tt
  | TokenBucket.HasAvailableTokens => hasAvailableTokens ;; ret tt
  end.

Fixpoint run (trace : list (Z * TokenBucket.call)) (this : TokenBucket)
    : TokenBucket :=
  match trace with
  | [] => this
  | (now, c) :: rest => run rest (snd (perform c now this))
  end.

(** The invariant of the class: [0 <= remaining <= capacity]. *)
Definition in_range (this : TokenBucket) : Prop :=
  le (int 0) (remaining this) = true
  /\ le (remaining this) (capacity this) = true.

(** The test of [consumeToken] as the call made at [now] evaluates it,
    what one call takes, and what the calls of a run take. *)
Definition takes_token (now : Z) (this : TokenBucket) : bool :=
  gt (remaining (snd (refillIfNeeded now this))) (int 0).

Definition step_taken (c : TokenBucket.call) (now : Z) (this : TokenBucket)
    : Z :=
  match c with
  | TokenBucket.ConsumeToken => if takes_token now this then 1 else 0
  | _ => 0
  end.

Fixpoint tokens_taken (trace : list (Z * TokenBucket.call))
    (this : TokenBucket) : Z :=
  match trace with
  | [] => 0
  | (now, c) :: rest =>
      step_taken c now this + tokens_taken rest (snd (perform c now this))
  end.

(** A bucket as the constructor makes it from a count that is a number
    (not NaN) and a valid date: these three facts hold for it. *)
Definition sound (this : TokenBucket) : Prop :=
  remaining this <> NaN
  /\ capacity this = BUCKET_CAPACITY
  /\ exists d : Z, refilledAt this = Some d.

(** The bucket with a whole number of tokens and a valid refill date:
    the bucket of [TokenBucket] among the buckets on numbers. *)
Definition whole (b : TokenBucket.TokenBucket) : TokenBucket :=
  {| refilledAt := Some (TokenBucket.refilledAt b);
     id := TokenBucket.id b;
     capacity := int (TokenBucket.capacity b);
     remaining := int (TokenBucket.remaining b) |}.

End TokenBucketNumber.

(* ------------------------------------------------------------------ *)
(** ** Counting the tokens a run takes *)

Module Traffic.

Import TokenBucket.

(** The test of [consumeToken], [this.remaining > 0], as the call made at
    [now] evaluates it: after its refill. *)
Definition takes_token (now : Z) (this : TokenBucket) : bool :=
  0 <? remaining (snd (refillIfNeeded now this)).

(** What one call takes: one token, or none. *)
Definition step_taken (c : call) (now : Z) (this : TokenBucket) : Z :=
  match c with
  | ConsumeToken => if takes_token now this then 1 else 0
  | _ => 0
  end.

(** How many tokens the calls of a run take. *)
Fixpoint tokens_taken (trace : list (Z * call)) (this : TokenBucket) : Z :=
  match trace with
  | [] => 0
  | (now, c) :: rest =>
      step_taken c now this + tokens_taken rest (snd (perform c now this))
  end.

(** How many calls of a run are [consumeToken] calls. *)
Fixpoint consume_calls (trace : list (Z * call)) : Z :=
  match trace with
  | [] => 0
  | (_, ConsumeToken) :: rest => 1 + consume_calls rest
  | _ :: rest => consume_calls rest
  end.

End Traffic.

(* ------------------------------------------------------------------ *)
(** ** The bucket storage (consts.ts, lines 154-174) *)

Module BucketStorage.

Import TokenBucket.

(** A bucket is an object: the storage and its callers hold references to
    it.  A reference is the address of the object in the heap. *)
Definition ref : Type := nat.

(** [Map.prototype.get] *)
Fixpoint map_get {V : Type} (k : string) (m : list (string * V)) : option V :=
  match m with
  | [] => None
  | (k', v) :: rest => if String.eqb k k' then Some v else map_get k rest
  end.

(** [Map.prototype.set]: the value of a key that is there is replaced
    where it is, a new key goes last. *)
Fixpoint map_set {V : Type} (k : string) (v : V) (m : list (string * V))
    : list (string * V) :=
  match m with
  | [] => [(k, v)]
  | (k', v') :: rest =>
      if String.eqb k k' then (k, v) :: rest else (k', v') :: map_set k v rest
  end.

(** Writing the object at an address. *)
Fixpoint heap_set {V : Type} (a : nat) (v : V) (h : list V) : list V :=
  match h, a with
  | [], _ => []
  | _ :: rest, O => v :: rest
  | x :: rest, S a' => x :: heap_set a' v rest
  end.

(** The heap of bucket objects, and [this.buckets] of the one storage. *)
Record store : Type := mkStore {
  heap : list TokenBucket;
  buckets : list (string * ref)
}.

(** [constructor() { this.buckets = new Map(); }] *)
Definition constructor (h : list TokenBucket) : store :=
  {| heap := h; buckets := [] |}.

(** How an [async] method settles: its promise is fulfilled with a value
    or rejected with the error its body threw. *)
Inductive error : Type :=
| ReferenceError (name : string).

Inductive settled (A : Type) : Type :=
| Fulfilled (a : A)
| Rejected (e : error).

Arguments Fulfilled {A} a.
Arguments Rejected {A} e.

(** [async getBucket(id: string): Promise<TokenBucket>]; the body has no
    [await], it runs to its end in one go.  [LeakyBucket] is declared and
    imported nowhere: evaluating [new LeakyBucket(id)] throws a
    ReferenceError, before [this.buckets.set] is reached. *)
Definition getBucket (id0 : string) (w : store) : settled ref * store :=
  match map_get id0 (buckets w) with
  | Some bucket => (Fulfilled bucket, w)
  | None => (Rejected (ReferenceError "LeakyBucket"), w)
  end.

(** [async saveBucket(bucket: TokenBucket): Promise<void>]; [None] stands
    for a reference to no object, which a caller cannot hold. *)
Definition saveBucket (bucket : ref) (w : store) : option store :=
  match nth_error (heap w) bucket with
  | Some obj =>
      Some {| heap := heap w;
              buckets := map_set (id obj) bucket (buckets w) |}
  | None => None
  end.


(** A method called on the object behind a reference. *)
Definition on {A : Type} (bucket : ref) (m : Method A) (now : Z) (w : store)
    : option (A * store) :=
  match nth_error (heap w) bucket with
  | Some obj =>
      let (a, obj') := m now obj in
      Some (a, {| heap := heap_set bucket obj' (heap w);
                  buckets := buckets w |})
  | None => None
  end.

End BucketStorage.

(* ------------------------------------------------------------------ *)
(** ** The constants and the configuration *)

Section Constants.

#[local] Open Scope string_scope.

(** C8: the site identity record has exactly the fields NAME and EMAIL,
    both strings, and one count per content type (posts, works, projects),
    each a small non-negative integer. *)
Theorem site_identity_record :
  Js.keys Js.SITE =
    [ "NAME"; "EMAIL"; "NUM_POSTS_ON_HOMEPAGE"; "NUM_WORKS_ON_HOMEPAGE";
      "NUM_PROJECTS_ON_HOMEPAGE" ]
  /\ exists (name email : string) (posts works projects : Z),
       Js.prop "NAME" Js.SITE = Some (Js.Str name)
       /\ Js.prop "EMAIL" Js.SITE = Some (Js.Str email)
       /\ Js.prop "NUM_POSTS_ON_HOMEPAGE" Js.SITE = Some (Js.Num posts)
       /\ Js.prop "NUM_WORKS_ON_HOMEPAGE" Js.SITE = Some (Js.Num works)
       /\ Js.prop "NUM_PROJECTS_ON_HOMEPAGE" Js.SITE = Some (Js.Num projects)
       /\ Js.small posts /\ Js.small works /\ Js.small projects.
Proof.
  split; [reflexivity|].
  do 5 eexists.
  repeat (split; [reflexivity|]).
  unfold Js.small; lia.
Qed.

(** The URL check tells absolute URLs from relative references, from
    texts without a host and from texts with a space. *)
Example absolute_url_rejects :
  Url.absolute "/site/" = false
  /\ Url.absolute "github.com/twillecke" = false
  /\ Url.absolute "https:///twillecke" = false
  /\ Url.absolute "https://github.com/t willecke" = false
  /\ Url.absolute "1ttp://github.com/" = false.
Proof. repeat split. Qed.

(** C5: SOCIALS is a list of two entries, and the HREF of every entry is a
    string that is an absolute URL. *)
Theorem socials_href_absolute :
  List.length (Js.elements Js.SOCIALS) = 2%nat
  /\ Forall
       (fun entry =>
          exists href : string,
            Js.prop "HREF" entry = Some (Js.Str href)
            /\ Url.absolute href = true)
       (Js.elements Js.SOCIALS).
Proof.
  split; [reflexivity|].
  repeat constructor; eexists; split; reflexivity.
Qed.

(** C4: the base path of the configuration record is a non-empty string
    whose first and last characters are the path separator. *)
Theorem base_path_delimited :
  exists (record : Js.expr) (base : string),
    Js.config = Some record
    /\ Js.prop "base" record = Some (Js.Str base)
    /\ base <> ""
    /\ Text.first_char base = Some "/"%char
    /\ Text.last_char base = Some "/"%char.
Proof.
  do 2 eexists.
  repeat (split; [reflexivity|]).
  split; [discriminate|].
  split; reflexivity.
Qed.

(** C6: the configuration record declares exactly three properties: the
    site, an origin URL; the base path; and the integrations, which are the
    Markdown/typed-content (mdx), sitemap and utility-class styling
    (tailwind) packages, in that order. *)
Theorem config_declares :
  exists (record : Js.expr) (site base : string) (entries : list Js.expr),
    Js.config = Some record
    /\ Js.keys record = [ "site"; "base"; "integrations" ]
    /\ Js.prop "site" record = Some (Js.Str site)
    /\ Url.origin site = true
    /\ Js.prop "base" record = Some (Js.Str base)
    /\ Js.prop "integrations" record = Some (Js.Arr entries)
    /\ map Js.integration_package entries =
         [ Some "@astrojs/mdx"; Some "@astrojs/sitemap";
           Some "@astrojs/tailwind" ].
Proof.
  do 4 eexists.
  repeat (split; [reflexivity|]).
  reflexivity.
Qed.

End Constants.

(* ------------------------------------------------------------------ *)
(** ** The front-matter of the content documents *)

Section FrontMatter.

#[local] Open Scope string_scope.

Import Content.

(** Every document has a front-matter block that reads as fields. *)
Lemma documents_have_front_matter :
  Forall (fun doc => exists kvs, front_matter doc = Some kvs) documents.
Proof.
  repeat constructor; eexists; reflexivity.
Qed.

(** C2, as stated, fails: the front-matter of "Automated Tests" has no
    draft field, so not every document has all four fields. *)
Lemma automated_tests_without_draft :
  In automated_tests documents
  /\ field "draft" automated_tests = None
  /\ ~ Forall (fun doc => complete doc = true) documents.
Proof.
  split; [right; left; reflexivity|].
  split; [reflexivity|].
  intros H.
  apply Forall_inv_tail, Forall_inv in H.
  discriminate H.
Qed.

(** C2, amended: every document's front-matter has a title, a description
    and a date, all texts; the draft field is optional, a boolean where it
    is present. *)
Theorem front_matter_fields :
  Forall
    (fun doc =>
       has_text "title" doc = true
       /\ has_text "description" doc = true
       /\ has_text "date" doc = true
       /\ (has_boolean "draft" doc = true \/ lacks "draft" doc = true))
    documents.
Proof.
  repeat constructor;
    first [ reflexivity | left; reflexivity | right; reflexivity ].
Qed.

(** The date reader refuses days a month does not have, unknown month
    names and missing parts. *)
Example date_parse_rejects :
  Date.parse "Feb 29 2025" = None
  /\ Date.parse "Jun 31 2025" = None
  /\ Date.parse "Jul 00 2025" = None
  /\ Date.parse "Juli 21 2025" = None
  /\ Date.parse "Jul 21" = None
  /\ Date.parse "" = None.
Proof. repeat split. Qed.

Example date_parse_leap_day :
  Date.parse "Feb 29 2024"
  = Some {| Date.year := 2024; Date.month := 2; Date.day := 29 |}.
Proof. reflexivity. Qed.

(** C3: the date field of every document is a string that reads as a
    valid calendar date. *)
Theorem front_matter_dates_valid :
  Forall
    (fun doc =>
       exists (s : string) (d : Date.date),
         field "date" doc = Some (YStr s) /\ Date.parse s = Some d)
    documents.
Proof.
  repeat constructor; do 2 eexists; split; reflexivity.
Qed.

End FrontMatter.

(* ------------------------------------------------------------------ *)
(** ** The token bucket *)

Section Bucket.

Import TokenBucket.

Ltac run_method :=
  unfold consumeToken, hasAvailableTokens, getTokensLeft, refillIfNeeded,
    bind, ret, newDate, this_, set_remaining, set_refilledAt; cbn.

(** What a refill does: nothing before a whole interval has passed; after
    [n >= 1] whole intervals it adds [n] tokens, up to the capacity, and
    moves [refilledAt] forward by these [n] intervals. *)
Lemma refillIfNeeded_cases (now : Z) (this : TokenBucket) :
  (now - refilledAt this < BUCKET_REFILL_RATE
   /\ refillIfNeeded now this = (tt, this))
  \/ (BUCKET_REFILL_RATE <= now - refilledAt this
      /\ exists n : Z,
           n = (now - refilledAt this) / BUCKET_REFILL_RATE
           /\ 1 <= n
           /\ refillIfNeeded now this =
                (tt, {| refilledAt := refilledAt this + n * BUCKET_REFILL_RATE;
                        id := id this;
                        capacity := capacity this;
                        remaining :=
                          Z.min (capacity this) (remaining this + n) |})).
Proof.
  run_method.
  destruct (Z.ltb_spec (now - refilledAt this) BUCKET_REFILL_RATE) as [Hlt|Hge].
  - left. split; [exact Hlt | reflexivity].
  - right. split; [exact Hge|].
    exists ((now - refilledAt this) / BUCKET_REFILL_RATE).
    assert (Hn : 1 <= (now - refilledAt this) / BUCKET_REFILL_RATE).
    { unfold BUCKET_REFILL_RATE in *. apply Z.div_le_lower_bound; lia. }
    split; [reflexivity|]. split; [exact Hn|].
    destruct (Z.leb_spec ((now - refilledAt this) / BUCKET_REFILL_RATE) 0);
      [lia | reflexivity].
Qed.

Lemma refillIfNeeded_in_range (now : Z) (this : TokenBucket) :
  in_range this -> in_range (snd (refillIfNeeded now this)).
Proof.
  unfold in_range. intros Hr.
  destruct (refillIfNeeded_cases now this) as [[_ ->] | [_ (n & _ & Hn & ->)]];
    cbn [snd remaining capacity]; [lia|].
  destruct (Z.min_spec (capacity this) (remaining this + n)) as [[? ->]|[? ->]];
    lia.
Qed.

Lemma refillIfNeeded_capacity (now : Z) (this : TokenBucket) :
  capacity (snd (refillIfNeeded now this)) = capacity this.
Proof.
  destruct (refillIfNeeded_cases now this) as [[_ ->] | [_ (n & _ & _ & ->)]];
    reflexivity.
Qed.

(** [consumeToken] and [hasAvailableTokens] in terms of the refill. *)
Lemma consumeToken_after_refill (now : Z) (this : TokenBucket) :
  consumeToken now this =
    let this' := snd (refillIfNeeded now this) in
    (tt,
     if 0 <? remaining this'
     then {| refilledAt := refilledAt this'; id := id this';
             capacity := capacity this'; remaining := remaining this' - 1 |}
     else this').
Proof.
  unfold consumeToken, bind.
  destruct (refillIfNeeded now this) as [[] this']. cbn.
  unfold this_, set_remaining, ret.
  destruct (0 <? remaining this'); reflexivity.
Qed.

Lemma hasAvailableTokens_after_refill (now : Z) (this : TokenBucket) :
  hasAvailableTokens now this =
    let this' := snd (refillIfNeeded now this) in
    (0 <? remaining this', this').
Proof.
  unfold hasAvailableTokens, bind.
  destruct (refillIfNeeded now this) as [[] this']. reflexivity.
Qed.

Lemma perform_in_range (c : call) (now : Z) (this : TokenBucket) :
  in_range this -> in_range (snd (perform c now this)).
Proof.
  intros Hr.
  pose proof (refillIfNeeded_in_range now this Hr) as Hr'.
  destruct c; unfold perform.
  - rewrite consumeToken_after_refill. cbn zeta. cbn [snd].
    remember (snd (refillIfNeeded now this)) as this' eqn:E. clear E.
    unfold in_range in *.
    destruct (Z.ltb_spec 0 (remaining this')); cbn [remaining capacity]; lia.
  - exact Hr.
  - unfold bind. rewrite hasAvailableTokens_after_refill. exact Hr'.
Qed.

Lemma perform_capacity (c : call) (now : Z) (this : TokenBucket) :
  capacity (snd (perform c now this)) = capacity this.
Proof.
  destruct c; unfold perform.
  - rewrite consumeToken_after_refill. cbn zeta. cbn [snd].
    destruct (0 <? remaining (snd (refillIfNeeded now this)));
      cbn [capacity]; apply refillIfNeeded_capacity.
  - reflexivity.
  - unfold bind. rewrite hasAvailableTokens_after_refill.
    apply refillIfNeeded_capacity.
Qed.

(** The invariant holds along any run, whatever the call times. *)
Lemma run_in_range (trace : list (Z * call)) (this : TokenBucket) :
  in_range this -> in_range (run trace this).
Proof.
  revert this.
  induction trace as [|[now c] rest IH]; intros this Hr; cbn.
  - exact Hr.
  - apply IH, perform_in_range, Hr.
Qed.

Lemma run_capacity (trace : list (Z * call)) (this : TokenBucket) :
  capacity (run trace this) = capacity this.
Proof.
  revert this.
  induction trace as [|[now c] rest IH]; intros this; cbn.
  - reflexivity.
  - rewrite IH. apply perform_capacity.
Qed.

Lemma constructor_in_range (id0 : string) (tokens refilledAt0 : option Z)
    (now : Z) :
  (forall t, tokens = Some t -> 0 <= t <= BUCKET_CAPACITY) ->
  in_range (constructor id0 tokens refilledAt0 now).
Proof.
  intros Ht. unfold in_range, constructor, BUCKET_CAPACITY in *. cbn.
  destruct tokens as [t|]; [specialize (Ht t eq_refl)|]; lia.
Qed.

(** A run of the article's scenario: five tokens, six requests in a row,
    then a request one interval later. *)
Example drained_then_refilled :
  let start := constructor "user" None (Some 0) 0 in
  let six := repeat (100, ConsumeToken) 6 in
  remaining (run six start) = 0
  /\ hasAvailableTokens 4999 (run six start) = (false, run six start)
  /\ fst (hasAvailableTokens 5000 (run six start)) = true
  /\ remaining (run (six ++ [(5000, ConsumeToken)]) start) = 0
  /\ refilledAt (run (six ++ [(5000, ConsumeToken)]) start) = 5000
  /\ remaining (run [(1000000, HasAvailableTokens)] (run six start)) = 5.
Proof. repeat split. Qed.

(** On whole counts and valid dates: a bucket constructed with between 0
    and BUCKET_CAPACITY tokens keeps its remaining count between 0 and its
    capacity (which stays BUCKET_CAPACITY) after any sequence of consumeToken, hasAvailableTokens
    and getTokensLeft calls made at non-decreasing times; and consumeToken
    on a bucket with no token left, called before a refill interval has
    passed, leaves the count at 0. *)
Theorem remaining_stays_in_range
    (id0 : string) (tokens : Z) (refilledAt0 : option Z) (now0 : Z)
    (trace : list (Z * call)) :
  0 <= tokens <= BUCKET_CAPACITY ->
  nondecreasing (map fst trace) ->
  (let this := run trace (constructor id0 (Some tokens) refilledAt0 now0) in
   0 <= remaining this <= capacity this
   /\ capacity this = BUCKET_CAPACITY)
  /\ (forall (now : Z) (this : TokenBucket),
        remaining this = 0 ->
        now - refilledAt this < BUCKET_REFILL_RATE ->
        remaining (snd (consumeToken now this)) = 0
        /\ refilledAt (snd (consumeToken now this)) = refilledAt this).
Proof.
  intros Ht _. split.
  - cbn zeta. split.
    + apply run_in_range, constructor_in_range.
      intros t [= <-]. exact Ht.
    + rewrite run_capacity. reflexivity.
  - intros now this H0 Hlt.
    rewrite consumeToken_after_refill. cbn zeta.
    destruct (refillIfNeeded_cases now this) as [[_ ->] | [Hge _]]; [|lia].
    cbn [snd]. rewrite H0. cbn [Z.ltb Z.compare].
    split; [exact H0 | reflexivity].
Qed.

(** At a bucket with one token: two calls drain it, the last call
    comes two intervals later; and the second consumeToken finds the bucket
    empty, ten milliseconds after its last refill. *)
Lemma remaining_stays_in_range_witness :
  (0 <= 1 <= BUCKET_CAPACITY
   /\ nondecreasing
        (map fst
           [ (0, ConsumeToken); (10, ConsumeToken); (10, GetTokensLeft);
             (12000, HasAvailableTokens) ]))
  /\ (0 <= remaining
             (run [ (0, ConsumeToken); (10, ConsumeToken);
                    (10, GetTokensLeft); (12000, HasAvailableTokens) ]
                  (constructor "user" (Some 1) (Some 0) 0))
        <= BUCKET_CAPACITY)
  /\ remaining
       (snd (consumeToken 10
               (run [ (0, ConsumeToken) ]
                    (constructor "user" (Some 1) (Some 0) 0)))) = 0.
Proof.
  assert (H1 : 0 <= 1 <= BUCKET_CAPACITY) by (unfold BUCKET_CAPACITY; lia).
  assert (H2 : nondecreasing
                 (map fst
                    [ (0, ConsumeToken); (10, ConsumeToken);
                      (10, GetTokensLeft); (12000, HasAvailableTokens) ]))
    by (cbn; lia).
  split; [split; [exact H1 | exact H2]|].
  destruct (remaining_stays_in_range "user" 1 (Some 0) 0 _ H1 H2)
    as [[Hrun Hcap] Hzero].
  split; [rewrite <- Hcap; exact Hrun|].
  apply Hzero; [reflexivity | vm_compute; reflexivity].
Defined.

(** The default token count of the constructor is the capacity, so a
    bucket constructed without a count is in range as well. *)
Lemma default_bucket_in_range (id0 : string) (refilledAt0 : option Z)
    (now0 : Z) (trace : list (Z * call)) :
  in_range (run trace (constructor id0 None refilledAt0 now0)).
Proof.
  apply run_in_range, constructor_in_range. discriminate.
Qed.


End Bucket.

(* ------------------------------------------------------------------ *)
(** ** More on the token bucket: refills, polling, the rate it enforces *)

Section Refill.

Import TokenBucket.

(** The whole intervals in a time span leave less than one interval. *)
Lemma whole_intervals (elapsed : Z) :
  0 <= elapsed - elapsed / BUCKET_REFILL_RATE * BUCKET_REFILL_RATE
    < BUCKET_REFILL_RATE.
Proof.
  unfold BUCKET_REFILL_RATE.
  pose proof (Z.div_mod elapsed 5000 ltac:(lia)).
  pose proof (Z.mod_pos_bound elapsed 5000 ltac:(lia)).
  lia.
Qed.

Lemma refillIfNeeded_id (now : Z) (this : TokenBucket) :
  id (snd (refillIfNeeded now this)) = id this.
Proof.
  destruct (refillIfNeeded_cases now this) as [[_ ->] | [_ (n & _ & _ & ->)]];
    reflexivity.
Qed.


(** X1: a refill made at or after refilledAt moves refilledAt forward by
    whole intervals only and stops less than one interval before the
    clock: the started interval is kept, not thrown away. *)
Theorem refill_keeps_started_interval (now : Z) (this : TokenBucket) :
  refilledAt this <= now ->
  refilledAt this <= refilledAt (snd (refillIfNeeded now this)) <= now
  /\ now - refilledAt (snd (refillIfNeeded now this)) < BUCKET_REFILL_RATE
  /\ (refilledAt (snd (refillIfNeeded now this)) - refilledAt this)
       mod BUCKET_REFILL_RATE = 0.
Proof.
  intros Hpast.
  destruct (refillIfNeeded_cases now this) as [[Hlt ->] | [_ (n & Hn & H1 & ->)]];
    cbn [snd refilledAt].
  - rewrite Z.sub_diag. repeat split; first [lia | reflexivity].
  - pose proof (whole_intervals (now - refilledAt this)) as Hw.
    rewrite <- Hn in Hw.
    replace (refilledAt this + n * BUCKET_REFILL_RATE - refilledAt this)
      with (n * BUCKET_REFILL_RATE) by lia.
    rewrite Z.mod_mul by (unfold BUCKET_REFILL_RATE; lia).
    unfold BUCKET_REFILL_RATE in *. repeat split; lia.
Qed.

Lemma refill_keeps_started_interval_witness :
  0 <= 12345
  /\ (0 <= refilledAt
             (snd (refillIfNeeded 12345
                     (constructor "user" (Some 0) (Some 0) 0))) <= 12345
      /\ 12345
           - refilledAt
               (snd (refillIfNeeded 12345
                       (constructor "user" (Some 0) (Some 0) 0)))
         < BUCKET_REFILL_RATE
      /\ (refilledAt
            (snd (refillIfNeeded 12345
                    (constructor "user" (Some 0) (Some 0) 0))) - 0)
           mod BUCKET_REFILL_RATE = 0).
Proof.
  split; [lia|].
  apply (refill_keeps_started_interval 12345
           (constructor "user" (Some 0) (Some 0) 0)).
  cbn. lia.
Defined.





(** Without the order of the two clock values the statement fails: a check
    at a later time has moved refilledAt past the earlier call. *)
Example later_check_changes_something :
  consumeToken 5000
    (snd (hasAvailableTokens 10000 (constructor "user" (Some 0) (Some 0) 0)))
  <> consumeToken 5000 (constructor "user" (Some 0) (Some 0) 0).
Proof. vm_compute. discriminate. Qed.

(** X7: no public call changes the id or the capacity of a bucket, and
    refilledAt only moves forward, by whole refill intervals. *)
Theorem run_frame (trace : list (Z * call)) (this : TokenBucket) :
  id (run trace this) = id this
  /\ capacity (run trace this) = capacity this
  /\ refilledAt this <= refilledAt (run trace this)
  /\ (refilledAt (run trace this) - refilledAt this)
       mod BUCKET_REFILL_RATE = 0.
Proof.
  assert (Hstep : forall c now b,
             id (snd (perform c now b)) = id b
             /\ exists n, 0 <= n
                  /\ refilledAt (snd (perform c now b)) =
                       refilledAt b + n * BUCKET_REFILL_RATE).
  { intros c now b.
    assert (Hr : exists n, 0 <= n
                   /\ refilledAt (snd (refillIfNeeded now b)) =
                        refilledAt b + n * BUCKET_REFILL_RATE).
    { destruct (refillIfNeeded_cases now b) as [[_ ->] | [_ (n & _ & H1 & ->)]].
      - exists 0. cbn [snd]. lia.
      - exists n. cbn [snd refilledAt]. lia. }
    pose proof (refillIfNeeded_id now b) as Hid.
    destruct c; unfold perform.
    - rewrite consumeToken_after_refill. cbn zeta. cbn [snd].
      destruct (0 <? remaining (snd (refillIfNeeded now b)));
        cbn [id refilledAt]; split; assumption.
    - split; [reflexivity|]. exists 0. cbn. lia.
    - unfold bind. rewrite hasAvailableTokens_after_refill.
      split; assumption. }
  split; [|split; [apply run_capacity|]].
  - revert this. induction trace as [|[now c] rest IH]; intros this; cbn.
    + reflexivity.
    + rewrite IH. apply Hstep.
  - assert (Hn : exists n, 0 <= n
                   /\ refilledAt (run trace this) =
                        refilledAt this + n * BUCKET_REFILL_RATE).
    { revert this. induction trace as [|[now c] rest IH]; intros this; cbn.
      - exists 0. lia.
      - destruct (IH (snd (perform c now this))) as (n2 & H2 & E2).
        destruct (Hstep c now this) as [_ (n1 & H1 & E1)].
        exists (n1 + n2). split; [lia|]. rewrite E2, E1. lia. }
    destruct Hn as (n & Hn & ->).
    replace (refilledAt this + n * BUCKET_REFILL_RATE - refilledAt this)
      with (n * BUCKET_REFILL_RATE) by lia.
    rewrite Z.mod_mul by (unfold BUCKET_REFILL_RATE; lia).
    unfold BUCKET_REFILL_RATE. split; [lia | reflexivity].
Qed.

End Refill.

Section RateLimit.

Import TokenBucket Traffic.

Lemma tokens_taken_cons (now : Z) (c : call) (rest : list (Z * call))
    (this : TokenBucket) :
  tokens_taken ((now, c) :: rest) this =
    step_taken c now this + tokens_taken rest (snd (perform c now this)).
Proof. reflexivity. Qed.

(** One call, made no later than [T]: what it takes and what it leaves is
    covered by what was there and the whole intervals refilledAt moved
    by; refilledAt stays at or before [T]. *)
Lemma perform_conserves (c : call) (now T : Z) (this : TokenBucket) :
  now <= T ->
  refilledAt this <= T ->
  exists n : Z,
    0 <= n
    /\ refilledAt (snd (perform c now this)) =
         refilledAt this + n * BUCKET_REFILL_RATE
    /\ refilledAt (snd (perform c now this)) <= T
    /\ step_taken c now this + remaining (snd (perform c now this))
         <= remaining this + n.
Proof.
  intros Hnow Hpast.
  assert (Hr : exists n : Z,
             0 <= n
             /\ refilledAt (snd (refillIfNeeded now this)) =
                  refilledAt this + n * BUCKET_REFILL_RATE
             /\ refilledAt (snd (refillIfNeeded now this)) <= T
             /\ remaining (snd (refillIfNeeded now this))
                  <= remaining this + n).
  { destruct (refillIfNeeded_cases now this)
      as [[_ ->] | [_ (n & Hn & H1 & ->)]]; cbn [snd refilledAt remaining].
    - exists 0. lia.
    - pose proof (whole_intervals (now - refilledAt this)) as Hw.
      rewrite <- Hn in Hw. clear Hn.
      exists n. unfold BUCKET_REFILL_RATE in *. lia. }
  destruct Hr as (n & Hn & Hat & HT & Hrem).
  destruct c; unfold perform, step_taken, takes_token.
  - rewrite consumeToken_after_refill. cbn zeta. cbn [snd].
    exists n.
    destruct (0 <? remaining (snd (refillIfNeeded now this)));
      cbn [refilledAt remaining]; lia.
  - exists 0. cbn. lia.
  - unfold bind. rewrite hasAvailableTokens_after_refill.
    unfold ret. cbn zeta. cbn [snd].
    exists n. lia.
Qed.

Lemma run_conserves (trace : list (Z * call)) (T : Z) (this : TokenBucket) :
  Forall (fun timed => fst timed <= T) trace ->
  refilledAt this <= T ->
  exists n : Z,
    0 <= n
    /\ refilledAt (run trace this) = refilledAt this + n * BUCKET_REFILL_RATE
    /\ refilledAt (run trace this) <= T
    /\ tokens_taken trace this + remaining (run trace this)
         <= remaining this + n.
Proof.
  intros Htimes. revert this.
  induction Htimes as [|[now c] rest Hnow _ IH]; intros this Hpast.
  - exists 0. cbn. lia.
  - cbn [fst] in Hnow.
    destruct (perform_conserves c now T this Hnow Hpast)
      as (n1 & Hn1 & Hat1 & HT1 & Hrem1).
    destruct (IH (snd (perform c now this)) HT1)
      as (n2 & Hn2 & Hat2 & HT2 & Hrem2).
    exists (n1 + n2). rewrite tokens_taken_cons. cbn [run].
    rewrite Hat2, Hat1 in *. lia.
Qed.

(** The rate the bucket enforces, on whole counts and valid dates.  From a
    bucket in range, the calls
    made up to time [T] take at most the tokens that were there plus one
    token per whole refill interval between refilledAt and [T]. *)
Theorem tokens_taken_bounded (trace : list (Z * call)) (T : Z)
    (this : TokenBucket) :
  in_range this ->
  refilledAt this <= T ->
  Forall (fun timed => fst timed <= T) trace ->
  tokens_taken trace this
    <= remaining this + (T - refilledAt this) / BUCKET_REFILL_RATE.
Proof.
  intros Hr Hpast Htimes.
  destruct (run_conserves trace T this Htimes Hpast)
    as (n & Hn & Hat & HT & Hrem).
  pose proof (run_in_range trace this Hr) as [Hlow _].
  assert (n <= (T - refilledAt this) / BUCKET_REFILL_RATE).
  { apply Z.div_le_lower_bound; unfold BUCKET_REFILL_RATE in *; lia. }
  lia.
Qed.

Lemma tokens_taken_bounded_witness :
  (in_range (constructor "user" (Some 2) (Some 0) 0)
   /\ refilledAt (constructor "user" (Some 2) (Some 0) 0) <= 6000
   /\ Forall (fun timed => fst timed <= 6000)
        [ (100, ConsumeToken); (200, ConsumeToken); (300, ConsumeToken);
          (5500, ConsumeToken); (6000, ConsumeToken) ])
  /\ tokens_taken
       [ (100, ConsumeToken); (200, ConsumeToken); (300, ConsumeToken);
         (5500, ConsumeToken); (6000, ConsumeToken) ]
       (constructor "user" (Some 2) (Some 0) 0)
     <= remaining (constructor "user" (Some 2) (Some 0) 0)
        + (6000 - refilledAt (constructor "user" (Some 2) (Some 0) 0))
          / BUCKET_REFILL_RATE.
Proof.
  assert (H1 : in_range (constructor "user" (Some 2) (Some 0) 0))
    by (unfold in_range; cbn; unfold BUCKET_CAPACITY; lia).
  assert (H2 : refilledAt (constructor "user" (Some 2) (Some 0) 0) <= 6000)
    by (cbn; lia).
  assert (H3 : Forall (fun timed => fst timed <= 6000)
                 [ (100, ConsumeToken); (200, ConsumeToken);
                   (300, ConsumeToken); (5500, ConsumeToken);
                   (6000, ConsumeToken) ])
    by (repeat constructor; cbn; lia).
  split; [split; [exact H1 | split; [exact H2 | exact H3]]|].
  exact (tokens_taken_bounded _ 6000 _ H1 H2 H3).
Defined.

(** The bound is met: two tokens at the start and one interval give three. *)
Example tokens_taken_bound_met :
  tokens_taken
    [ (100, ConsumeToken); (200, ConsumeToken); (300, ConsumeToken);
      (5500, ConsumeToken); (6000, ConsumeToken) ]
    (constructor "user" (Some 2) (Some 0) 0) = 3.
Proof. reflexivity. Qed.



Lemma consume_calls_nonneg (trace : list (Z * call)) :
  0 <= consume_calls trace.
Proof.
  induction trace as [|[now []] rest IH]; cbn [consume_calls]; lia.
Qed.

(** A call made before a whole interval has passed does not refill. *)
Lemma perform_within_interval (c : call) (now : Z) (this : TokenBucket) :
  now - refilledAt this < BUCKET_REFILL_RATE ->
  refilledAt (snd (perform c now this)) = refilledAt this
  /\ remaining (snd (perform c now this)) =
       remaining this - step_taken c now this
  /\ step_taken c now this =
       match c with
       | ConsumeToken => if 0 <? remaining this then 1 else 0
       | _ => 0
       end.
Proof.
  intros Hlt.
  destruct (refillIfNeeded_cases now this) as [[_ E] | [Hge _]]; [|lia].
  destruct c; unfold perform, step_taken, takes_token.
  - rewrite consumeToken_after_refill. cbn zeta. rewrite E. cbn [snd].
    destruct (0 <? remaining this); cbn [refilledAt remaining];
      repeat split; lia.
  - cbn. repeat split; lia.
  - unfold bind. rewrite hasAvailableTokens_after_refill.
    unfold ret. cbn zeta. rewrite E. cbn [snd]. repeat split; lia.
Qed.

(** On whole counts and valid dates, within one refill interval the bucket
    only counts down: after any
    calls made before refilledAt + BUCKET_REFILL_RATE, the count is the
    count at the start less the number of consumeToken calls, not below 0;
    the calls beyond the count take nothing, and refilledAt has not
    moved. *)
Theorem burst_within_interval (trace : list (Z * call)) (this : TokenBucket) :
  0 <= remaining this ->
  Forall (fun timed => fst timed - refilledAt this < BUCKET_REFILL_RATE)
    trace ->
  remaining (run trace this) = Z.max 0 (remaining this - consume_calls trace)
  /\ tokens_taken trace this = Z.min (remaining this) (consume_calls trace)
  /\ refilledAt (run trace this) = refilledAt this.
Proof.
  intros Hlow Htimes. revert this Hlow Htimes.
  induction trace as [|[now c] rest IH]; intros this Hlow Htimes.
  - cbn. lia.
  - pose proof (Forall_inv Htimes) as Hnow. cbn [fst] in Hnow.
    apply Forall_inv_tail in Htimes.
    destruct (perform_within_interval c now this Hnow) as (Hat & Hrem & Htake).
    assert (Hlow' : 0 <= remaining (snd (perform c now this))).
    { rewrite Hrem, Htake.
      destruct c; [destruct (Z.ltb_spec 0 (remaining this))|..]; lia. }
    rewrite <- Hat in Htimes.
    destruct (IH _ Hlow' Htimes) as (IH1 & IH2 & IH3).
    cbn [run]. rewrite tokens_taken_cons, IH1, IH2, IH3, Hrem, Htake.
    pose proof (consume_calls_nonneg rest).
    split; [|split; [|exact Hat]];
      destruct c; cbn [consume_calls];
      try destruct (Z.ltb_spec 0 (remaining this)); lia.
Qed.

Lemma burst_within_interval_witness :
  (0 <= remaining (constructor "user" None (Some 0) 0)
   /\ Forall
        (fun timed =>
           fst timed - refilledAt (constructor "user" None (Some 0) 0)
             < BUCKET_REFILL_RATE)
        (repeat (4999, ConsumeToken) 7))
  /\ remaining
       (run (repeat (4999, ConsumeToken) 7)
          (constructor "user" None (Some 0) 0))
     = Z.max 0
         (remaining (constructor "user" None (Some 0) 0)
          - consume_calls (repeat (4999, ConsumeToken) 7)).
Proof.
  assert (H1 : 0 <= remaining (constructor "user" None (Some 0) 0))
    by (cbn; unfold BUCKET_CAPACITY; lia).
  assert (H2 : Forall
                 (fun timed =>
                    fst timed - refilledAt (constructor "user" None (Some 0) 0)
                      < BUCKET_REFILL_RATE)
                 (repeat (4999, ConsumeToken) 7))
    by (repeat constructor).
  split; [split; [exact H1 | exact H2]|].
  exact (proj1 (burst_within_interval _ _ H1 H2)).
Defined.

Lemma perform_upper (c : call) (now : Z) (this : TokenBucket) :
  remaining this <= capacity this ->
  remaining (snd (perform c now this)) <= capacity this.
Proof.
  intros Hup.
  assert (Hr : remaining (snd (refillIfNeeded now this)) <= capacity this).
  { destruct (refillIfNeeded_cases now this)
      as [[_ ->] | [_ (n & _ & _ & ->)]]; cbn [snd remaining]; lia. }
  destruct c; unfold perform.
  - rewrite consumeToken_after_refill. cbn zeta. cbn [snd].
    destruct (0 <? remaining (snd (refillIfNeeded now this)));
      cbn [remaining]; lia.
  - exact Hup.
  - unfold bind. rewrite hasAvailableTokens_after_refill. exact Hr.
Qed.

Lemma run_upper (trace : list (Z * call)) (this : TokenBucket) :
  remaining this <= capacity this ->
  remaining (run trace this) <= capacity this.
Proof.
  revert this.
  induction trace as [|[now c] rest IH]; intros this Hup; cbn [run].
  - exact Hup.
  - rewrite <- (perform_capacity c now this).
    apply IH. rewrite perform_capacity. apply perform_upper, Hup.
Qed.

(** On whole counts and valid dates: the constructor takes any count as it
    is, also one above the capacity; the first consumeToken or hasAvailableTokens call that comes
    a whole interval after refilledAt brings the count down to the capacity
    at most, and no later call lets it exceed the capacity again. *)
Theorem unchecked_count_clamped (id0 : string) (tokens : Z)
    (refilledAt0 : option Z) (now0 : Z) (c : call) (now : Z)
    (trace : list (Z * call)) :
  c <> GetTokensLeft ->
  BUCKET_REFILL_RATE
    <= now - refilledAt (constructor id0 (Some tokens) refilledAt0 now0) ->
  remaining (constructor id0 (Some tokens) refilledAt0 now0) = tokens
  /\ remaining
       (run ((now, c) :: trace)
          (constructor id0 (Some tokens) refilledAt0 now0))
     <= BUCKET_CAPACITY.
Proof.
  intros Hc Hge. split; [reflexivity|].
  set (this := constructor id0 (Some tokens) refilledAt0 now0) in *.
  change BUCKET_CAPACITY with (capacity this).
  cbn [run].
  rewrite <- (perform_capacity c now this).
  apply run_upper. rewrite perform_capacity.
  assert (Hr : remaining (snd (refillIfNeeded now this)) <= capacity this).
  { destruct (refillIfNeeded_cases now this)
      as [[Hlt _] | [_ (n & _ & _ & ->)]]; [lia|]. cbn [snd remaining]. lia. }
  destruct c; unfold perform.
  - rewrite consumeToken_after_refill. cbn zeta. cbn [snd].
    destruct (0 <? remaining (snd (refillIfNeeded now this)));
      cbn [remaining]; lia.
  - contradiction.
  - unfold bind. rewrite hasAvailableTokens_after_refill. exact Hr.
Qed.

Lemma unchecked_count_clamped_witness :
  (HasAvailableTokens <> GetTokensLeft
   /\ BUCKET_REFILL_RATE
        <= 5000 - refilledAt (constructor "user" (Some 9) (Some 0) 0))
  /\ remaining
       (run [ (5000, HasAvailableTokens); (5001, ConsumeToken) ]
          (constructor "user" (Some 9) (Some 0) 0))
     <= BUCKET_CAPACITY.
Proof.
  assert (H1 : HasAvailableTokens <> GetTokensLeft) by discriminate.
  assert (H2 : BUCKET_REFILL_RATE
                 <= 5000 - refilledAt (constructor "user" (Some 9) (Some 0) 0))
    by (cbn; unfold BUCKET_REFILL_RATE; lia).
  split; [split; [exact H1 | exact H2]|].
  exact (proj2 (unchecked_count_clamped "user" 9 (Some 0) 0 _ 5000 _ H1 H2)).
Defined.

(** Until then the excess is served: nine tokens let nine requests pass
    within one interval, and a negative count is never lowered. *)
Example unchecked_count_served :
  tokens_taken (repeat (100, ConsumeToken) 12)
    (constructor "user" (Some 9) (Some 0) 0) = 9
  /\ remaining
       (run (repeat (100, ConsumeToken) 3)
          (constructor "user" (Some (-2)) (Some 0) 0)) = -2.
Proof. split; reflexivity. Qed.

End RateLimit.

(* ------------------------------------------------------------------ *)
(** ** The bucket storage *)

Section Storage.

Import TokenBucket BucketStorage.

Lemma map_get_set_same {V : Type} (k : string) (v : V)
    (m : list (string * V)) :
  map_get k (map_set k v m) = Some v.
Proof.
  induction m as [|[k' v'] rest IH]; cbn.
  - rewrite String.eqb_refl. reflexivity.
  - destruct (String.eqb k k') eqn:E; cbn; rewrite ?String.eqb_refl, ?E;
      [reflexivity | exact IH].
Qed.

Lemma map_get_set_other {V : Type} (k other : string) (v : V)
    (m : list (string * V)) :
  other <> k ->
  map_get other (map_set k v m) = map_get other m.
Proof.
  intros Hne. apply String.eqb_neq in Hne.
  induction m as [|[k' v'] rest IH]; cbn.
  - rewrite Hne. reflexivity.
  - destruct (String.eqb k k') eqn:E; cbn.
    + apply String.eqb_eq in E. subst k'. rewrite Hne. reflexivity.
    + rewrite IH. reflexivity.
Qed.

Lemma heap_set_same {V : Type} (a : nat) (v : V) (h : list V) :
  nth_error h a = Some v -> heap_set a v h = h.
Proof.
  revert a. induction h as [|x rest IH]; intros [|a] E; cbn in *;
    try discriminate; try reflexivity.
  - injection E as ->. reflexivity.
  - rewrite (IH a E). reflexivity.
Qed.

Lemma heap_set_read {V : Type} (a : nat) (v : V) (h : list V) :
  (a < List.length h)%nat -> nth_error (heap_set a v h) a = Some v.
Proof.
  revert a. induction h as [|x rest IH]; intros [|a] Hlt; cbn in *;
    try lia; [reflexivity|].
  apply IH. lia.
Qed.

Lemma heap_set_elsewhere {V : Type} (a b : nat) (v : V) (h : list V) :
  a <> b -> nth_error (heap_set a v h) b = nth_error h b.
Proof.
  revert a b. induction h as [|x rest IH]; intros [|a] [|b] Hne; cbn;
    try reflexivity; try contradiction.
  apply IH. congruence.
Qed.



(** X11: the bucket that getBucket hands out for a registered id is the
    stored object itself: what a method call through it does to the bucket
    (a token consumed, a refill) is there for the next caller that asks the
    storage for the same id, without any saveBucket. *)
Theorem bucket_shared_with_storage {A : Type} (m : Method A) (id0 : string)
    (t later : Z) (w : store) (bucket : ref) (obj : TokenBucket) :
  map_get id0 (buckets w) = Some bucket ->
  nth_error (heap w) bucket = Some obj ->
  exists w2 : store,
    getBucket id0 w = (Fulfilled bucket, w)
    /\ on bucket m t w = Some (fst (m t obj), w2)
    /\ getBucket id0 w2 = (Fulfilled bucket, w2)
    /\ on bucket getTokensLeft later w2 =
         Some (remaining (snd (m t obj)), w2).
Proof.
  intros Hkey Hobj.
  assert (Hvalid : (bucket < List.length (heap w))%nat).
  { apply nth_error_Some. rewrite Hobj. discriminate. }
  exists {| heap := heap_set bucket (snd (m t obj)) (heap w);
            buckets := buckets w |}.
  split; [|split; [|split]].
  - unfold getBucket. rewrite Hkey. reflexivity.
  - unfold on. rewrite Hobj. destruct (m t obj) as [res obj']. reflexivity.
  - unfold getBucket. cbn [buckets]. rewrite Hkey. reflexivity.
  - unfold on. cbn [heap buckets].
    rewrite heap_set_read by exact Hvalid.
    unfold getTokensLeft, this_.
    rewrite heap_set_same; [reflexivity|].
    apply heap_set_read, Hvalid.
Qed.

(** X12: saveBucket registers a bucket under the id the bucket carries,
    in place of whatever was stored under that id, and makes no object:
    getBucket for that id then returns the saved bucket. *)
Theorem saveBucket_then_getBucket (bucket : ref) (obj : TokenBucket)
    (w : store) :
  nth_error (heap w) bucket = Some obj ->
  exists w1 : store,
    saveBucket bucket w = Some w1
    /\ heap w1 = heap w
    /\ getBucket (id obj) w1 = (Fulfilled bucket, w1).
Proof.
  intros Hobj.
  exists {| heap := heap w; buckets := map_set (id obj) bucket (buckets w) |}.
  split; [|split].
  - unfold saveBucket. rewrite Hobj. reflexivity.
  - reflexivity.
  - unfold getBucket. cbn [buckets]. rewrite map_get_set_same. reflexivity.
Qed.

End Storage.

Section StorageRuns.

Import TokenBucket BucketStorage.


(** A storage with one bucket, saved under its id. *)
Lemma bucket_shared_with_storage_witness :
  (map_get "carol"
     (buckets
        {| heap := [TokenBucket.constructor "carol" (Some 2) (Some 0) 0];
           buckets := [("carol"%string, 0%nat)] |}) = Some 0%nat
   /\ nth_error
        (heap
           {| heap := [TokenBucket.constructor "carol" (Some 2) (Some 0) 0];
              buckets := [("carol"%string, 0%nat)] |}) 0
      = Some (TokenBucket.constructor "carol" (Some 2) (Some 0) 0))
  /\ exists w2 : store,
       getBucket "carol"
         {| heap := [TokenBucket.constructor "carol" (Some 2) (Some 0) 0];
            buckets := [("carol"%string, 0%nat)] |}
       = (Fulfilled 0%nat,
          {| heap := [TokenBucket.constructor "carol" (Some 2) (Some 0) 0];
             buckets := [("carol"%string, 0%nat)] |})
       /\ on 0%nat consumeToken 150
            {| heap := [TokenBucket.constructor "carol" (Some 2) (Some 0) 0];
               buckets := [("carol"%string, 0%nat)] |}
          = Some
              (fst (consumeToken 150
                      (TokenBucket.constructor "carol" (Some 2) (Some 0) 0)),
               w2)
       /\ getBucket "carol" w2 = (Fulfilled 0%nat, w2)
       /\ on 0%nat getTokensLeft 200 w2
          = Some
              (remaining
                 (snd (consumeToken 150
                         (TokenBucket.constructor "carol" (Some 2) (Some 0) 0))),
               w2).
Proof.
  split; [split; reflexivity|].
  exact (bucket_shared_with_storage consumeToken "carol" 150 200
           {| heap := [TokenBucket.constructor "carol" (Some 2) (Some 0) 0];
              buckets := [("carol"%string, 0%nat)] |}
           0%nat (TokenBucket.constructor "carol" (Some 2) (Some 0) 0)
           eq_refl eq_refl).
Defined.

(** The same run from the saveBucket call on, computed: one token is left
    of the two. *)
Example shared_bucket_run :
  match saveBucket 0%nat
          (BucketStorage.constructor
             [TokenBucket.constructor "carol" (Some 2) (Some 0) 0]) with
  | Some w1 =>
      match getBucket "carol" w1 with
      | (Fulfilled bucket, _) =>
          match on bucket consumeToken 150 w1 with
          | Some (_, w2) =>
              match getBucket "carol" w2 with
              | (Fulfilled again, _) =>
                  option_map fst (on again getTokensLeft 200 w2)
              | _ => None
              end
          | None => None
          end
      | _ => None
      end
  | None => None
  end = Some 1.
Proof. reflexivity. Qed.

Lemma saveBucket_then_getBucket_witness :
  nth_error
    (heap (BucketStorage.constructor
             [TokenBucket.constructor "carol" (Some 2) (Some 0) 0]))
    0
  = Some (TokenBucket.constructor "carol" (Some 2) (Some 0) 0)
  /\ exists w1 : store,
       saveBucket 0%nat
         (BucketStorage.constructor
            [TokenBucket.constructor "carol" (Some 2) (Some 0) 0])
       = Some w1
       /\ heap w1 =
            heap (BucketStorage.constructor
                    [TokenBucket.constructor "carol" (Some 2) (Some 0) 0])
       /\ getBucket
            (id (TokenBucket.constructor "carol" (Some 2) (Some 0) 0)) w1
          = (Fulfilled 0%nat, w1).
Proof.
  split; [reflexivity|].
  exact (saveBucket_then_getBucket
           0%nat (TokenBucket.constructor "carol" (Some 2) (Some 0) 0)
           (BucketStorage.constructor
              [TokenBucket.constructor "carol" (Some 2) (Some 0) 0])
           eq_refl).
Defined.

End StorageRuns.

(* ------------------------------------------------------------------ *)
(** ** The token bucket on numbers *)

Section WholeNumbers.

Import Number.

(** On integers the operations of [number] are those of [Z]. *)

Lemma Qred_inject_Z (z : Z) : Qred (inject_Z z) = inject_Z z.
Proof.
  apply Qred_identity. cbn. apply Z.gcd_1_r.
Qed.

Lemma add_int (a b : Z) : add (int a) (int b) = int (a + b).
Proof.
  unfold add, int. rewrite <- inject_Z_plus, Qred_inject_Z. reflexivity.
Qed.

Lemma sub_int (a b : Z) : sub (int a) (int b) = int (a - b).
Proof.
  unfold sub, int, Qminus.
  rewrite <- inject_Z_opp, <- inject_Z_plus, Qred_inject_Z. reflexivity.
Qed.

Lemma mul_int (a b : Z) : mul (int a) (int b) = int (a * b).
Proof.
  unfold mul, int. rewrite <- inject_Z_mult, Qred_inject_Z. reflexivity.
Qed.

Lemma Qle_bool_inject_Z (a b : Z) :
  Qle_bool (inject_Z a) (inject_Z b) = (a <=? b).
Proof.
  unfold Qle_bool. cbn. rewrite !Z.mul_1_r. reflexivity.
Qed.

Lemma le_int (a b : Z) : le (int a) (int b) = (a <=? b).
Proof. apply Qle_bool_inject_Z. Qed.

Lemma lt_int (a b : Z) : lt (int a) (int b) = (a <? b).
Proof.
  unfold lt, int. rewrite Qle_bool_inject_Z. symmetry. apply Z.ltb_antisym.
Qed.

Lemma gt_int (a b : Z) : gt (int a) (int b) = (b <? a).
Proof. apply lt_int. Qed.

Lemma min_int (a b : Z) : min (int a) (int b) = int (Z.min a b).
Proof.
  unfold min, int. rewrite Qle_bool_inject_Z.
  destruct (Z.leb_spec a b).
  - rewrite Z.min_l by lia. reflexivity.
  - rewrite Z.min_r by lia. reflexivity.
Qed.

Lemma floor_div_int (a b : Z) :
  b <> 0 -> floor (div (int a) (int b)) = int (a / b).
Proof.
  intros Hb. unfold div, int.
  destruct (Qeq_bool (inject_Z b) 0) eqn:E.
  - apply Qeq_bool_eq in E.
    apply (proj1 (inject_Z_injective b 0)) in E. contradiction.
  - unfold floor, int. f_equal. f_equal.
    rewrite (Qfloor_comp _ _ (Qred_correct _)).
    symmetry. apply Zdiv_Qdiv.
Qed.

Lemma new_Date_int (t : Z) : new_Date (int t) = Some t.
Proof.
  unfold new_Date, int.
  rewrite Qfloor_Z, Qceiling_Z.
  destruct (Qle_bool 0 (inject_Z t)); reflexivity.
Qed.

End WholeNumbers.

Section WholeBuckets.

Import Number TokenBucketNumber.

(** On a bucket with a whole number of tokens and a valid refill date,
    every method does what it does in [TokenBucket]. *)

Lemma refillIfNeeded_whole (now : Z) (b : TokenBucket.TokenBucket) :
  refillIfNeeded now (whole b) =
    (tt, whole (snd (TokenBucket.refillIfNeeded now b))).
Proof.
  unfold refillIfNeeded, TokenBucket.refillIfNeeded, bind, TokenBucket.bind,
    newDate, TokenBucket.newDate, this_, TokenBucket.this_,
    BUCKET_REFILL_RATE, TokenBucket.BUCKET_REFILL_RATE.
  cbn [whole refilledAt getTime].
  rewrite sub_int, lt_int.
  destruct (now - TokenBucket.refilledAt b <? 5000); [reflexivity|].
  rewrite floor_div_int by lia. rewrite le_int.
  destruct ((now - TokenBucket.refilledAt b) / 5000 <=? 0); [reflexivity|].
  unfold set_remaining, set_refilledAt, TokenBucket.set_remaining,
    TokenBucket.set_refilledAt, whole.
  cbn [refilledAt id capacity remaining getTime snd
       TokenBucket.refilledAt TokenBucket.id TokenBucket.capacity
       TokenBucket.remaining].
  rewrite add_int, min_int, mul_int, add_int, new_Date_int. reflexivity.
Qed.

Lemma consumeToken_whole (now : Z) (b : TokenBucket.TokenBucket) :
  consumeToken now (whole b) =
    (tt, whole (snd (TokenBucket.consumeToken now b))).
Proof.
  rewrite consumeToken_after_refill. cbn zeta. cbn [snd].
  unfold consumeToken, bind. rewrite refillIfNeeded_whole.
  unfold this_. cbn [whole remaining]. rewrite gt_int.
  destruct (0 <? TokenBucket.remaining (snd (TokenBucket.refillIfNeeded now b)));
    [|reflexivity].
  unfold set_remaining, whole.
  cbn [refilledAt id capacity remaining
       TokenBucket.refilledAt TokenBucket.id TokenBucket.capacity
       TokenBucket.remaining].
  rewrite sub_int. reflexivity.
Qed.

Lemma hasAvailableTokens_whole (now : Z) (b : TokenBucket.TokenBucket) :
  hasAvailableTokens now (whole b) =
    (fst (TokenBucket.hasAvailableTokens now b),
     whole (snd (TokenBucket.hasAvailableTokens now b))).
Proof.
  rewrite hasAvailableTokens_after_refill. cbn zeta. cbn [fst snd].
  unfold hasAvailableTokens, bind. rewrite refillIfNeeded_whole.
  unfold this_, ret. cbn [whole remaining]. rewrite gt_int. reflexivity.
Qed.

Lemma perform_whole (c : TokenBucket.call) (now : Z)
    (b : TokenBucket.TokenBucket) :
  snd (perform c now (whole b)) = whole (snd (TokenBucket.perform c now b)).
Proof.
  destruct c; unfold perform, TokenBucket.perform.
  - rewrite consumeToken_whole. reflexivity.
  - reflexivity.
  - unfold bind, TokenBucket.bind. rewrite hasAvailableTokens_whole.
    destruct (TokenBucket.hasAvailableTokens now b). reflexivity.
Qed.

Lemma run_whole (trace : list (Z * TokenBucket.call))
    (b : TokenBucket.TokenBucket) :
  run trace (whole b) = whole (TokenBucket.run trace b).
Proof.
  revert b. induction trace as [|[now c] rest IH]; intros b; cbn [run].
  - reflexivity.
  - rewrite perform_whole. apply IH.
Qed.

Lemma step_taken_whole (c : TokenBucket.call) (now : Z)
    (b : TokenBucket.TokenBucket) :
  step_taken c now (whole b) = Traffic.step_taken c now b.
Proof.
  destruct c; try reflexivity.
  unfold step_taken, Traffic.step_taken, takes_token, Traffic.takes_token.
  rewrite refillIfNeeded_whole. cbn [snd whole remaining].
  rewrite gt_int. reflexivity.
Qed.

Lemma tokens_taken_whole (trace : list (Z * TokenBucket.call))
    (b : TokenBucket.TokenBucket) :
  tokens_taken trace (whole b) = Traffic.tokens_taken trace b.
Proof.
  revert b. induction trace as [|[now c] rest IH]; intros b.
  - reflexivity.
  - cbn [tokens_taken Traffic.tokens_taken].
    rewrite step_taken_whole, perform_whole, IH. reflexivity.
Qed.

Lemma constructor_whole (id0 : string) (tokens : option Z)
    (refilledAt0 : option Z) (now : Z) :
  constructor id0 (option_map int tokens) (option_map Some refilledAt0) now =
    whole (TokenBucket.constructor id0 tokens refilledAt0 now).
Proof.
  destruct tokens, refilledAt0; reflexivity.
Qed.

End WholeBuckets.

Section NumberBucket.

Import Number TokenBucketNumber.

(** C9, as stated, fails: half a token is a count between 0 and
    BUCKET_CAPACITY, and one consumeToken, made before any refill is due,
    leaves minus a half. *)
Lemma half_token_goes_negative :
  le (int 0) (Fin (1 # 2)) = true
  /\ le (Fin (1 # 2)) BUCKET_CAPACITY = true
  /\ TokenBucket.nondecreasing (map fst [ (10, TokenBucket.ConsumeToken) ])
  /\ remaining
       (run [ (10, TokenBucket.ConsumeToken) ]
          (constructor "user" (Some (Fin (1 # 2))) (Some (Some 0)) 0))
     = Fin (- 1 # 2)
  /\ ~ in_range
         (run [ (10, TokenBucket.ConsumeToken) ]
            (constructor "user" (Some (Fin (1 # 2))) (Some (Some 0)) 0)).
Proof.
  split; [reflexivity|]. split; [reflexivity|].
  split; [exact I|]. split; [reflexivity|].
  intros [Hlow _]. vm_compute in Hlow. discriminate Hlow.
Qed.

(** So does it with an Invalid Date as refilledAt: the first refill makes
    the count NaN, which is in no range, and no later call repairs it. *)
Example invalid_date_gives_NaN :
  remaining
    (run [ (10, TokenBucket.HasAvailableTokens) ]
       (constructor "user" (Some (int 3)) (Some None) 0)) = NaN
  /\ remaining
       (run [ (10, TokenBucket.HasAvailableTokens);
              (20, TokenBucket.ConsumeToken);
              (90000, TokenBucket.HasAvailableTokens) ]
          (constructor "user" (Some (int 3)) (Some None) 0)) = NaN
  /\ ~ in_range
         (run [ (10, TokenBucket.HasAvailableTokens) ]
            (constructor "user" (Some (int 3)) (Some None) 0)).
Proof.
  split; [reflexivity|]. split; [reflexivity|].
  intros [Hlow _]. vm_compute in Hlow. discriminate Hlow.
Qed.

Lemma in_range_whole (b : TokenBucket.TokenBucket) :
  TokenBucket.in_range b -> in_range (whole b).
Proof.
  intros [Hlow Hup]. unfold in_range. cbn [whole remaining capacity].
  rewrite !le_int. split; apply Z.leb_le; assumption.
Qed.

(** C9, amended: a bucket constructed with a whole number of tokens between
    0 and BUCKET_CAPACITY and a valid refilledAt date (or the default one)
    keeps, after any sequence of consumeToken, hasAvailableTokens and
    getTokensLeft calls made at non-decreasing times, a whole number of
    tokens between 0 and its capacity, which stays BUCKET_CAPACITY; and
    consumeToken on a bucket with no token left and a valid refilledAt,
    called before a refill interval has passed, leaves the count at 0. *)
Theorem whole_count_stays_in_range
    (id0 : string) (tokens : Z) (refilledAt0 : option Z) (now0 : Z)
    (trace : list (Z * TokenBucket.call)) :
  0 <= tokens <= TokenBucket.BUCKET_CAPACITY ->
  TokenBucket.nondecreasing (map fst trace) ->
  ((exists r : Z,
      remaining
        (run trace
           (constructor id0 (Some (int tokens)) (option_map Some refilledAt0)
              now0)) = int r
      /\ 0 <= r <= TokenBucket.BUCKET_CAPACITY)
   /\ in_range
        (run trace
           (constructor id0 (Some (int tokens)) (option_map Some refilledAt0)
              now0))
   /\ capacity
        (run trace
           (constructor id0 (Some (int tokens)) (option_map Some refilledAt0)
              now0)) = BUCKET_CAPACITY)
  /\ (forall (now d : Z) (this : TokenBucket),
        remaining this = int 0 ->
        refilledAt this = Some d ->
        now - d < TokenBucket.BUCKET_REFILL_RATE ->
        remaining (snd (consumeToken now this)) = int 0
        /\ refilledAt (snd (consumeToken now this)) = Some d).
Proof.
  intros Ht _. split.
  - pose proof (constructor_whole id0 (Some tokens) refilledAt0 now0) as E.
    cbn [option_map] in E. rewrite E. clear E.
    rewrite run_whole.
    assert (Hr : TokenBucket.in_range
                   (TokenBucket.run trace
                      (TokenBucket.constructor id0 (Some tokens) refilledAt0
                         now0))).
    { apply run_in_range, constructor_in_range.
      intros t [= <-]. exact Ht. }
    pose proof (run_capacity trace
                  (TokenBucket.constructor id0 (Some tokens) refilledAt0 now0))
      as Hcap.
    cbn [TokenBucket.constructor TokenBucket.capacity] in Hcap.
    split; [|split].
    + eexists. split; [reflexivity|].
      unfold TokenBucket.in_range in Hr. rewrite Hcap in Hr. exact Hr.
    + apply in_range_whole, Hr.
    + cbn [whole capacity]. rewrite Hcap. reflexivity.
  - intros now d [r i c rem] Hrem Hd Hlt. cbn [remaining refilledAt] in *.
    subst rem r.
    unfold consumeToken, refillIfNeeded, bind, newDate, this_, ret,
      set_remaining, BUCKET_REFILL_RATE.
    cbn [refilledAt getTime].
    rewrite sub_int, lt_int.
    unfold TokenBucket.BUCKET_REFILL_RATE in Hlt.
    apply Z.ltb_lt in Hlt. rewrite Hlt.
    cbn [remaining]. rewrite gt_int. cbn. split; reflexivity.
Qed.

Lemma whole_count_stays_in_range_witness :
  (0 <= 1 <= TokenBucket.BUCKET_CAPACITY
   /\ TokenBucket.nondecreasing
        (map fst
           [ (0, TokenBucket.ConsumeToken); (10, TokenBucket.ConsumeToken);
             (10, TokenBucket.GetTokensLeft);
             (12000, TokenBucket.HasAvailableTokens) ]))
  /\ in_range
       (run [ (0, TokenBucket.ConsumeToken); (10, TokenBucket.ConsumeToken);
              (10, TokenBucket.GetTokensLeft);
              (12000, TokenBucket.HasAvailableTokens) ]
          (constructor "user" (Some (int 1)) (option_map Some (Some 0)) 0))
  /\ remaining
       (snd (consumeToken 10
               (run [ (0, TokenBucket.ConsumeToken) ]
                  (constructor "user" (Some (int 1)) (Some (Some 0)) 0))))
     = int 0.
Proof.
  assert (H1 : 0 <= 1 <= TokenBucket.BUCKET_CAPACITY)
    by (unfold TokenBucket.BUCKET_CAPACITY; lia).
  assert (H2 : TokenBucket.nondecreasing
                 (map fst
                    [ (0, TokenBucket.ConsumeToken);
                      (10, TokenBucket.ConsumeToken);
                      (10, TokenBucket.GetTokensLeft);
                      (12000, TokenBucket.HasAvailableTokens) ]))
    by (cbn; lia).
  split; [split; [exact H1 | exact H2]|].
  destruct (whole_count_stays_in_range "user" 1 (Some 0) 0 _ H1 H2)
    as [(_ & Hrange & _) Hzero].
  split; [exact Hrange|].
  apply (Hzero 10 0); [reflexivity | reflexivity | vm_compute; reflexivity].
Defined.

End NumberBucket.

Section AnyCount.

Import Number TokenBucketNumber.

Lemma run_app (p t : list (Z * TokenBucket.call)) (this : TokenBucket) :
  run (p ++ t) this = run t (run p this).
Proof.
  revert this. induction p as [|[now c] rest IH]; intros this; cbn [run app].
  - reflexivity.
  - apply IH.
Qed.

(** What a refill does on a bucket with a valid refill date. *)
Lemma refillIfNeeded_valid_cases (now d : Z) (this : TokenBucket) :
  refilledAt this = Some d ->
  (now - d < 5000 /\ refillIfNeeded now this = (tt, this))
  \/ (5000 <= now - d
      /\ exists n : Z,
           1 <= n
           /\ refillIfNeeded now this =
                (tt, {| refilledAt := Some (d + n * 5000);
                        id := id this;
                        capacity := capacity this;
                        remaining :=
                          min (capacity this) (add (remaining this) (int n)) |})).
Proof.
  intros Hd.
  unfold refillIfNeeded, bind, newDate, this_, ret, set_remaining,
    set_refilledAt, BUCKET_REFILL_RATE.
  rewrite Hd. cbn [getTime refilledAt id capacity remaining snd].
  rewrite sub_int, lt_int.
  destruct (Z.ltb_spec (now - d) 5000) as [Hlt|Hge].
  - left. split; [exact Hlt | reflexivity].
  - right. split; [exact Hge|].
    rewrite floor_div_int by lia. rewrite le_int.
    assert (Hn : 1 <= (now - d) / 5000)
      by (apply Z.div_le_lower_bound; lia).
    exists ((now - d) / 5000). split; [exact Hn|].
    destruct (Z.leb_spec ((now - d) / 5000) 0); [lia|].
    rewrite Hd. cbn [getTime].
    rewrite mul_int, add_int, new_Date_int. reflexivity.
Qed.

Lemma add_int_not_NaN (x : number) (n : Z) : x <> NaN -> add x (int n) <> NaN.
Proof.
  destruct x; intros H; cbn; try discriminate. contradiction.
Qed.

Lemma sub_int_not_NaN (x : number) (n : Z) : x <> NaN -> sub x (int n) <> NaN.
Proof.
  destruct x; intros H; cbn; try discriminate. contradiction.
Qed.

(** [Math.min] with the capacity brings any number down to it. *)
Lemma min_capacity (y : number) :
  y <> NaN ->
  min BUCKET_CAPACITY y <> NaN
  /\ le (min BUCKET_CAPACITY y) BUCKET_CAPACITY = true.
Proof.
  intros Hy. destruct y as [b| | |]; try contradiction.
  - unfold min, BUCKET_CAPACITY, int.
    destruct (Qle_bool (inject_Z 5) b) eqn:E.
    + split; [discriminate | reflexivity].
    + split; [discriminate|]. cbn [le]. apply Qle_bool_iff.
      destruct (Qlt_le_dec b (inject_Z 5)) as [Hlt|Hle].
      * apply Qlt_le_weak, Hlt.
      * apply Qle_bool_iff in Hle. congruence.
  - split; [discriminate | reflexivity].
  - split; [discriminate | reflexivity].
Qed.

Lemma sub_one_below (x : number) :
  le x BUCKET_CAPACITY = true -> le (sub x (int 1)) BUCKET_CAPACITY = true.
Proof.
  destruct x as [a| | |]; intros H;
    [ | discriminate H | reflexivity | discriminate H ].
  unfold le, sub, BUCKET_CAPACITY, int in *.
  apply Qle_bool_iff in H. apply Qle_bool_iff.
  rewrite Qred_correct.
  change (inject_Z 1) with 1%Q. change (inject_Z 5) with 5%Q in *. lra.
Qed.

Lemma perform_sound (c : TokenBucket.call) (now : Z) (this : TokenBucket) :
  sound this -> sound (snd (perform c now this)).
Proof.
  intros (Hrem & Hcap & d & Hd).
  assert (Hr : sound (snd (refillIfNeeded now this))).
  { destruct (refillIfNeeded_valid_cases now d this Hd)
      as [[_ ->] | [_ (n & _ & ->)]]; cbn [snd].
    - repeat split; [exact Hrem | exact Hcap | exists d; exact Hd].
    - unfold sound. cbn [remaining capacity refilledAt].
      rewrite Hcap. split; [|split; [reflexivity | eexists; reflexivity]].
      apply min_capacity, add_int_not_NaN, Hrem. }
  destruct c; unfold perform.
  - unfold consumeToken, bind.
    destruct (refillIfNeeded now this) as [[] this']. cbn [snd] in Hr.
    unfold this_, set_remaining, ret.
    destruct (gt (remaining this') (int 0)); cbn [snd]; [|exact Hr].
    destruct Hr as (Hrem' & Hcap' & d' & Hd').
    unfold sound. cbn [remaining capacity refilledAt].
    split; [apply sub_int_not_NaN, Hrem' | split; [exact Hcap' | exists d'; exact Hd']].
  - repeat split; [exact Hrem | exact Hcap | exists d; exact Hd].
  - unfold hasAvailableTokens, bind.
    destruct (refillIfNeeded now this) as [[] this']. exact Hr.
Qed.

Lemma run_sound (trace : list (Z * TokenBucket.call)) (this : TokenBucket) :
  sound this -> sound (run trace this).
Proof.
  revert this. induction trace as [|[now c] rest IH]; intros this Hs; cbn [run].
  - exact Hs.
  - apply IH, perform_sound, Hs.
Qed.

Lemma refill_below (now : Z) (this : TokenBucket) :
  sound this ->
  le (remaining this) BUCKET_CAPACITY = true
  \/ (exists d : Z, refilledAt this = Some d /\ 5000 <= now - d) ->
  le (remaining (snd (refillIfNeeded now this))) BUCKET_CAPACITY = true.
Proof.
  intros (Hrem & Hcap & d & Hd) Hor.
  destruct (refillIfNeeded_valid_cases now d this Hd)
    as [[Hlt ->] | [_ (n & _ & ->)]]; cbn [snd remaining].
  - destruct Hor as [Hup | (d' & Hd' & Hge)]; [exact Hup|].
    rewrite Hd in Hd'. injection Hd' as <-. lia.
  - rewrite Hcap. apply min_capacity, add_int_not_NaN, Hrem.
Qed.

Lemma perform_below (c : TokenBucket.call) (now : Z) (this : TokenBucket) :
  sound this ->
  (le (remaining this) BUCKET_CAPACITY = true
   \/ (c <> TokenBucket.GetTokensLeft
       /\ exists d : Z, refilledAt this = Some d /\ 5000 <= now - d)) ->
  le (remaining (snd (perform c now this))) BUCKET_CAPACITY = true.
Proof.
  intros Hs Hor.
  assert (Hr : c <> TokenBucket.GetTokensLeft ->
               le (remaining (snd (refillIfNeeded now this))) BUCKET_CAPACITY
               = true).
  { intros Hc. apply refill_below; [exact Hs|].
    destruct Hor as [Hup | [_ Hex]]; [left; exact Hup | right; exact Hex]. }
  destruct c; unfold perform.
  - specialize (Hr ltac:(discriminate)).
    unfold consumeToken, bind.
    destruct (refillIfNeeded now this) as [[] this']. cbn [snd] in Hr.
    unfold this_, set_remaining, ret.
    destruct (gt (remaining this') (int 0)); cbn [snd remaining]; [|exact Hr].
    apply sub_one_below, Hr.
  - cbn. destruct Hor as [Hup | [Hc _]]; [exact Hup | contradiction].
  - specialize (Hr ltac:(discriminate)).
    unfold hasAvailableTokens, bind.
    destruct (refillIfNeeded now this) as [[] this']. exact Hr.
Qed.

Lemma run_below (trace : list (Z * TokenBucket.call)) (this : TokenBucket) :
  sound this ->
  le (remaining this) BUCKET_CAPACITY = true ->
  le (remaining (run trace this)) BUCKET_CAPACITY = true.
Proof.
  revert this. induction trace as [|[now c] rest IH]; intros this Hs Hup;
    cbn [run].
  - exact Hup.
  - apply IH; [apply perform_sound, Hs | apply perform_below; auto].
Qed.

Lemma constructor_sound (id0 : string) (tokens : number)
    (refilledAt0 : option Z) (now0 : Z) :
  tokens <> NaN ->
  sound (constructor id0 (Some tokens) (option_map Some refilledAt0) now0).
Proof.
  intros Ht. unfold sound, constructor. cbn [remaining capacity refilledAt].
  split; [exact Ht | split; [reflexivity|]].
  destruct refilledAt0; eexists; reflexivity.
Qed.

(** X8: the constructor stores the count it is given unchecked: a
    fraction, a negative number, a count above the capacity, an infinity.
    Whatever number it is (NaN apart) and whatever calls came before, a
    consumeToken or hasAvailableTokens call made a whole interval or more
    after refilledAt brings the count to BUCKET_CAPACITY at most, and no
    later call lets it exceed the capacity again. *)
Theorem any_count_clamped (id0 : string) (tokens : number)
    (refilledAt0 : option Z) (now0 : Z)
    (earlier : list (Z * TokenBucket.call)) (c : TokenBucket.call)
    (now d : Z) (later : list (Z * TokenBucket.call)) :
  tokens <> NaN ->
  c <> TokenBucket.GetTokensLeft ->
  refilledAt
    (run earlier
       (constructor id0 (Some tokens) (option_map Some refilledAt0) now0))
  = Some d ->
  5000 <= now - d ->
  remaining (constructor id0 (Some tokens) (option_map Some refilledAt0) now0)
  = tokens
  /\ le (remaining
           (run (earlier ++ (now, c) :: later)
              (constructor id0 (Some tokens) (option_map Some refilledAt0)
                 now0)))
        BUCKET_CAPACITY = true.
Proof.
  intros Ht Hc Hd Hge. split; [reflexivity|].
  rewrite run_app. cbn [run].
  pose proof (run_sound earlier _
                (constructor_sound id0 tokens refilledAt0 now0 Ht)) as Hs.
  apply run_below; [apply perform_sound, Hs|].
  apply perform_below; [exact Hs|].
  right. split; [exact Hc|]. exists d. split; [exact Hd | exact Hge].
Qed.

Lemma any_count_clamped_witness :
  (Fin (19 # 2) <> NaN
   /\ TokenBucket.HasAvailableTokens <> TokenBucket.GetTokensLeft
   /\ refilledAt
        (run [ (100, TokenBucket.ConsumeToken) ]
           (constructor "user" (Some (Fin (19 # 2))) (option_map Some (Some 0))
              0))
      = Some 0
   /\ 5000 <= 5000 - 0)
  /\ le (remaining
           (run ([ (100, TokenBucket.ConsumeToken) ]
                 ++ (5000, TokenBucket.HasAvailableTokens)
                    :: [ (5001, TokenBucket.ConsumeToken) ])
              (constructor "user" (Some (Fin (19 # 2)))
                 (option_map Some (Some 0)) 0)))
        BUCKET_CAPACITY = true.
Proof.
  assert (H1 : Fin (19 # 2) <> NaN) by discriminate.
  assert (H2 : TokenBucket.HasAvailableTokens <> TokenBucket.GetTokensLeft)
    by discriminate.
  assert (H3 : refilledAt
                 (run [ (100, TokenBucket.ConsumeToken) ]
                    (constructor "user" (Some (Fin (19 # 2)))
                       (option_map Some (Some 0)) 0))
               = Some 0) by reflexivity.
  assert (H4 : 5000 <= 5000 - 0) by lia.
  split; [split; [exact H1 | split; [exact H2 | split; [exact H3 | exact H4]]]|].
  exact (proj2 (any_count_clamped "user" (Fin (19 # 2)) (Some 0) 0
                  [ (100, TokenBucket.ConsumeToken) ]
                  TokenBucket.HasAvailableTokens 5000 0
                  [ (5001, TokenBucket.ConsumeToken) ] H1 H2 H3 H4)).
Defined.

(** Until then the excess is served: nine tokens and a half let ten
    requests pass within one interval and leave minus a half. *)
Example unchecked_fraction_served :
  tokens_taken (repeat (100, TokenBucket.ConsumeToken) 12)
    (constructor "user" (Some (Fin (19 # 2))) (Some (Some 0)) 0) = 10
  /\ remaining
       (run (repeat (100, TokenBucket.ConsumeToken) 12)
          (constructor "user" (Some (Fin (19 # 2))) (Some (Some 0)) 0))
     = Fin (- 1 # 2).
Proof. split; reflexivity. Qed.

Lemma perform_keeps_NaN (c : TokenBucket.call) (now : Z) (this : TokenBucket) :
  remaining this = NaN -> remaining (snd (perform c now this)) = NaN.
Proof.
  intros Hrem.
  assert (Hr : remaining (snd (refillIfNeeded now this)) = NaN).
  { unfold refillIfNeeded, bind, newDate, this_, ret, set_remaining,
      set_refilledAt.
    destruct (lt _ _); [exact Hrem|].
    destruct (le _ _); [exact Hrem|].
    cbn [snd remaining]. rewrite Hrem.
    destruct (capacity this); reflexivity. }
  destruct c; unfold perform.
  - unfold consumeToken, bind.
    destruct (refillIfNeeded now this) as [[] this']. cbn [snd] in Hr.
    unfold this_, set_remaining, ret. rewrite Hr. exact Hr.
  - exact Hrem.
  - unfold hasAvailableTokens, bind.
    destruct (refillIfNeeded now this) as [[] this']. exact Hr.
Qed.

(** X13: a count that is NaN, given to the constructor or made by a refill
    from an Invalid Date, is never repaired: after any calls it is still
    NaN, and hasAvailableTokens answers false at any time. *)
Theorem NaN_count_stays (trace : list (Z * TokenBucket.call)) (now : Z)
    (this : TokenBucket) :
  remaining this = NaN ->
  remaining (run trace this) = NaN
  /\ fst (hasAvailableTokens now (run trace this)) = false.
Proof.
  intros Hrem.
  assert (Hrun : remaining (run trace this) = NaN).
  { revert this Hrem.
    induction trace as [|[t c] rest IH]; intros this Hrem; cbn [run].
    - exact Hrem.
    - apply IH, perform_keeps_NaN, Hrem. }
  split; [exact Hrun|].
  pose proof (perform_keeps_NaN TokenBucket.HasAvailableTokens now _ Hrun) as H.
  unfold perform, bind in H. unfold hasAvailableTokens, bind in *.
  destruct (refillIfNeeded now (run trace this)) as [[] this'].
  unfold this_, ret in *. cbn [fst snd] in *. rewrite H. reflexivity.
Qed.

Lemma NaN_count_stays_witness :
  remaining (constructor "user" (Some NaN) (Some (Some 0)) 0) = NaN
  /\ (remaining
        (run [ (100, TokenBucket.ConsumeToken);
               (90000, TokenBucket.HasAvailableTokens) ]
           (constructor "user" (Some NaN) (Some (Some 0)) 0)) = NaN
      /\ fst (hasAvailableTokens 95000
                (run [ (100, TokenBucket.ConsumeToken);
                       (90000, TokenBucket.HasAvailableTokens) ]
                   (constructor "user" (Some NaN) (Some (Some 0)) 0)))
         = false).
Proof.
  split; [reflexivity|].
  exact (NaN_count_stays _ 95000
           (constructor "user" (Some NaN) (Some (Some 0)) 0) eq_refl).
Defined.

End AnyCount.

Section WholeCounts.

Import Number TokenBucketNumber.

(** X4: the rate the bucket enforces.  From a bucket with a whole number of
    tokens between 0 and its capacity and a valid refilledAt date, the
    calls made up to time [T] take at most the tokens that were there plus
    one token per whole refill interval between refilledAt and [T]. *)
Theorem whole_tokens_taken_bounded (trace : list (Z * TokenBucket.call))
    (T : Z) (b : TokenBucket.TokenBucket) :
  TokenBucket.in_range b ->
  TokenBucket.refilledAt b <= T ->
  Forall (fun timed => fst timed <= T) trace ->
  tokens_taken trace (whole b)
    <= TokenBucket.remaining b + (T - TokenBucket.refilledAt b) / 5000.
Proof.
  intros Hr Hpast Htimes.
  rewrite tokens_taken_whole.
  exact (tokens_taken_bounded trace T b Hr Hpast Htimes).
Qed.

Lemma whole_tokens_taken_bounded_witness :
  (TokenBucket.in_range (TokenBucket.constructor "user" (Some 2) (Some 0) 0)
   /\ TokenBucket.refilledAt
        (TokenBucket.constructor "user" (Some 2) (Some 0) 0) <= 6000
   /\ Forall (fun timed => fst timed <= 6000)
        [ (100, TokenBucket.ConsumeToken); (200, TokenBucket.ConsumeToken);
          (300, TokenBucket.ConsumeToken); (5500, TokenBucket.ConsumeToken);
          (6000, TokenBucket.ConsumeToken) ])
  /\ tokens_taken
       [ (100, TokenBucket.ConsumeToken); (200, TokenBucket.ConsumeToken);
         (300, TokenBucket.ConsumeToken); (5500, TokenBucket.ConsumeToken);
         (6000, TokenBucket.ConsumeToken) ]
       (whole (TokenBucket.constructor "user" (Some 2) (Some 0) 0))
     <= TokenBucket.remaining
          (TokenBucket.constructor "user" (Some 2) (Some 0) 0)
        + (6000
           - TokenBucket.refilledAt
               (TokenBucket.constructor "user" (Some 2) (Some 0) 0))
          / 5000.
Proof.
  assert (H1 : TokenBucket.in_range
                 (TokenBucket.constructor "user" (Some 2) (Some 0) 0))
    by (unfold TokenBucket.in_range; cbn;
        unfold TokenBucket.BUCKET_CAPACITY; lia).
  assert (H2 : TokenBucket.refilledAt
                 (TokenBucket.constructor "user" (Some 2) (Some 0) 0) <= 6000)
    by (cbn; lia).
  assert (H3 : Forall (fun timed => fst timed <= 6000)
                 [ (100, TokenBucket.ConsumeToken);
                   (200, TokenBucket.ConsumeToken);
                   (300, TokenBucket.ConsumeToken);
                   (5500, TokenBucket.ConsumeToken);
                   (6000, TokenBucket.ConsumeToken) ])
    by (repeat constructor; cbn; lia).
  split; [split; [exact H1 | split; [exact H2 | exact H3]]|].
  exact (whole_tokens_taken_bounded _ 6000 _ H1 H2 H3).
Defined.

(** The count has to be whole: half a token serves one request, at once. *)
Example half_token_serves_one :
  tokens_taken [ (10, TokenBucket.ConsumeToken) ]
    (constructor "user" (Some (Fin (1 # 2))) (Some (Some 0)) 0) = 1.
Proof. reflexivity. Qed.



End WholeCounts.
